(** * RuWordNet wrapper: index construction and lookup queries

    A shallow embedding of [ruwordnet.py] (class [RuWordNetInfo]).

    - Python dictionaries that are only probed by key are [gmap string _].
    - The relation dictionary of one synset, which the code walks with
      [.items()], and the dictionaries returned by
      [show_synset_relations_with_words] are insertion-ordered association
      lists ([odict]).
    - The lists stored in [synset_word_N/V/A] are mutable objects that
      [show_synset_words] hands out by reference; a reference is the place
      the list is stored at (partition and synset id), see [list_obj].
    - A failing subscript raises [KeyError]; fallible code returns an
      [outcome]. *)

From Stdlib Require Import Ascii.
From stdpp Require Import gmap strings list fin_maps.

(** ** Records supplied by the XML files *)

(** A child of [senses.X.xml]; the code reads the attributes [name],
    [synset_id], [meaning] and [lemma]. *)
Record sense := Sense {
  s_name : string;
  s_synset_id : string;
  s_meaning : string;
  s_lemma : string
}.

(** A child of [synsets.X.xml]. *)
Record synset := Synset {
  y_id : string;
  y_ruthes_name : string;
  y_definition : string
}.

(** A child of [synset_relations.X.xml]. *)
Record relation := Relation {
  r_parent_id : string;
  r_name : string;
  r_child_id : string
}.

(** The value stored per synset by [extract_synset_definitions]:
    [{'ruthes_name': ..., 'definition': ...}]. *)
Record synset_info := SynsetInfo {
  ruthes_name : string;
  definition : string
}.

(** ** Exceptions *)

Inductive exn := KeyError (key : string).

Inductive outcome (A : Type) :=
| Return (a : A)
| Raise (e : exn).
Arguments Return {A} a.
Arguments Raise {A} e.

(** ** Insertion-ordered dictionaries *)

Module OrderedDict.

Definition odict (V : Type) := list (string * V).

Fixpoint get {V} (d : odict V) (k : string) : option V :=
  match d with
  | [] => None
  | (k', v) :: d' => if String.eqb k' k then Some v else get d' k
  end.

(** [d[k] = v]: overwrite in place, or append a new key at the end. *)
Fixpoint set {V} (d : odict V) (k : string) (v : V) : odict V :=
  match d with
  | [] => [(k, v)]
  | (k', v') :: d' =>
      if String.eqb k' k then (k', v) :: d' else (k', v') :: set d' k v
  end.

Definition mem {V} (d : odict V) (k : string) : bool :=
  match get d k with Some _ => true | None => false end.

End OrderedDict.
Import OrderedDict.

(** [x in l] on a list of strings. *)
Fixpoint list_mem (x : string) (l : list string) : bool :=
  match l with
  | [] => false
  | y :: l' => if String.eqb y x then true else list_mem x l'
  end.

(** [l.remove(x)]: drops the first element equal to [x]. The code guards
    every call with [x in l], so the [ValueError] case is not reached. *)
Fixpoint list_remove (x : string) (l : list string) : list string :=
  match l with
  | [] => []
  | y :: l' => if String.eqb y x then l' else y :: list_remove x l'
  end.

(** ** The object and its construction *)

(** The attributes of a [RuWordNetInfo] instance. *)
Record RuWordNetInfo := {
  senses_N : list sense;
  senses_V : list sense;
  senses_A : list sense;
  synsets_N : list synset;
  synsets_V : list synset;
  synsets_A : list synset;
  word_synset_N : gmap string (list string);
  synset_word_N : gmap string (list string);
  word_synset_V : gmap string (list string);
  synset_word_V : gmap string (list string);
  word_synset_A : gmap string (list string);
  synset_word_A : gmap string (list string);
  defin_N : gmap string synset_info;
  defin_V : gmap string synset_info;
  defin_A : gmap string synset_info;
  basic_relations : gmap string (odict (list string))
}.

(** The parsed content of the nine data files read by [__init__]; the
    relation files come in the order of [relations_file_names]. *)
Record thesaurus := {
  file_senses_N : list sense;
  file_senses_V : list sense;
  file_senses_A : list sense;
  file_synsets_N : list synset;
  file_synsets_V : list synset;
  file_synsets_A : list synset;
  file_relations : list (list relation)
}.

Section Builder.

(** [str.lower] of the Python runtime. *)
Variable lower : string → string.

(** One iteration of the loop of [create_word_synset_map]. *)
Definition add_sense (acc : gmap string (list string) * gmap string (list string))
    (child : sense) : gmap string (list string) * gmap string (list string) :=
  let '(synset_dict, synonyms) := acc in
  let name := lower (s_name child) in
  let synset_dict :=
    match synset_dict !! name with
    | None => <[name := []]> synset_dict
    | Some _ => synset_dict
    end in
  let synset_dict :=
    <[name := default [] (synset_dict !! name) ++ [s_synset_id child]]> synset_dict in
  let synonyms :=
    match synonyms !! s_synset_id child with
    | None => <[s_synset_id child := []]> synonyms
    | Some _ => synonyms
    end in
  let synonyms :=
    <[s_synset_id child := default [] (synonyms !! s_synset_id child) ++ [name]]> synonyms in
  (synset_dict, synonyms).

Definition create_word_synset_map (senses : list sense)
    : gmap string (list string) * gmap string (list string) :=
  fold_left add_sense senses (∅, ∅).

Definition extract_synset_definitions (synsets : list synset) : gmap string synset_info :=
  fold_left
    (fun definitions child =>
       <[y_id child := SynsetInfo (y_ruthes_name child) (y_definition child)]> definitions)
    synsets ∅.

(** One iteration of the inner loop of [get_basic_relations]; the state
    is [relatives_dict_new] and [par_id_prev]. *)
Definition add_relation (acc : gmap string (odict (list string)) * string)
    (child : relation) : outcome (gmap string (odict (list string)) * string) :=
  let '(relatives_dict_new, par_id_prev) := acc in
  if String.eqb par_id_prev (r_parent_id child) then
    match relatives_dict_new !! r_parent_id child with
    | None => Raise (KeyError (r_parent_id child))
    | Some rels =>
        match get rels (r_name child) with
        | Some children =>
            Return (<[r_parent_id child :=
                        set rels (r_name child) (children ++ [r_child_id child])]>
                      relatives_dict_new,
                    par_id_prev)
        | None =>
            Return (<[r_parent_id child := set rels (r_name child) [r_child_id child]]>
                      relatives_dict_new,
                    r_parent_id child)
        end
    end
  else
    Return (<[r_parent_id child := set [] (r_name child) [r_child_id child]]>
              relatives_dict_new,
            r_parent_id child).

Fixpoint add_relations (root : list relation)
    (acc : gmap string (odict (list string)) * string)
    : outcome (gmap string (odict (list string)) * string) :=
  match root with
  | [] => Return acc
  | child :: root' =>
      match add_relation acc child with
      | Return acc' => add_relations root' acc'
      | Raise e => Raise e
      end
  end.

(** The outer loop: [par_id_prev] starts again at [''] for every file. *)
Fixpoint add_relation_files (files : list (list relation))
    (relatives_dict_new : gmap string (odict (list string)))
    : outcome (gmap string (odict (list string))) :=
  match files with
  | [] => Return relatives_dict_new
  | root :: files' =>
      match add_relations root (relatives_dict_new, "") with
      | Return (relatives_dict_new', _) => add_relation_files files' relatives_dict_new'
      | Raise e => Raise e
      end
  end.

Definition get_basic_relations (relations_files : list (list relation))
    : outcome (gmap string (odict (list string))) :=
  add_relation_files relations_files ∅.

(** [__init__]. *)
Definition init (t : thesaurus) : outcome RuWordNetInfo :=
  let '(ws_N, sw_N) := create_word_synset_map (file_senses_N t) in
  let '(ws_V, sw_V) := create_word_synset_map (file_senses_V t) in
  let '(ws_A, sw_A) := create_word_synset_map (file_senses_A t) in
  match get_basic_relations (file_relations t) with
  | Raise e => Raise e
  | Return rels =>
      Return {|
        senses_N := file_senses_N t;
        senses_V := file_senses_V t;
        senses_A := file_senses_A t;
        synsets_N := file_synsets_N t;
        synsets_V := file_synsets_V t;
        synsets_A := file_synsets_A t;
        word_synset_N := ws_N; synset_word_N := sw_N;
        word_synset_V := ws_V; synset_word_V := sw_V;
        word_synset_A := ws_A; synset_word_A := sw_A;
        defin_N := extract_synset_definitions (file_synsets_N t);
        defin_V := extract_synset_definitions (file_synsets_V t);
        defin_A := extract_synset_definitions (file_synsets_A t);
        basic_relations := rels
      |}
  end.

End Builder.

(** [str.lower] restricted to ASCII letters; other bytes are kept. It
    agrees with Python on every string whose non-ASCII characters are
    already lower case. *)
Definition ascii_lower_char (c : ascii) : ascii :=
  let n := nat_of_ascii c in
  if (65 <=? n)%nat && (n <=? 90)%nat then ascii_of_nat (n + 32) else c.

Fixpoint ascii_lower (s : string) : string :=
  match s with
  | EmptyString => EmptyString
  | String c s' => String (ascii_lower_char c) (ascii_lower s')
  end.

(** ** Lookups *)

(** Part-of-speech partitions, in the order the code probes them. *)
Inductive partition := Noun | Verb | Adj.

(** A list object as [show_synset_words] returns it: the list stored in
    one of the [synset_word] dictionaries (handed out by reference), or a
    list built by the call. *)
Inductive list_obj :=
| Stored (p : partition) (synset_number : string)
| Fresh (l : list string).

Definition synset_word (st : RuWordNetInfo) (p : partition) : gmap string (list string) :=
  match p with
  | Noun => synset_word_N st
  | Verb => synset_word_V st
  | Adj => synset_word_A st
  end.

(** The current content of a list object. *)
Definition content (st : RuWordNetInfo) (o : list_obj) : list string :=
  match o with
  | Stored p synset_number => default [] (synset_word st p !! synset_number)
  | Fresh l => l
  end.

Definition set_synset_word (st : RuWordNetInfo) (p : partition)
    (m : gmap string (list string)) : RuWordNetInfo :=
  {| senses_N := senses_N st; senses_V := senses_V st; senses_A := senses_A st;
     synsets_N := synsets_N st; synsets_V := synsets_V st; synsets_A := synsets_A st;
     word_synset_N := word_synset_N st;
     synset_word_N := match p with Noun => m | _ => synset_word_N st end;
     word_synset_V := word_synset_V st;
     synset_word_V := match p with Verb => m | _ => synset_word_V st end;
     word_synset_A := word_synset_A st;
     synset_word_A := match p with Adj => m | _ => synset_word_A st end;
     defin_N := defin_N st; defin_V := defin_V st; defin_A := defin_A st;
     basic_relations := basic_relations st |}.

(** [o.remove(word)]: the object is changed in place, so a stored list
    changes in the dictionary that holds it. *)
Definition remove_in_place (st : RuWordNetInfo) (o : list_obj) (word : string)
    : list_obj * RuWordNetInfo :=
  match o with
  | Stored p synset_number =>
      (o, set_synset_word st p
            (<[synset_number := list_remove word (content st o)]> (synset_word st p)))
  | Fresh l => (Fresh (list_remove word l), st)
  end.

(** The list returned by [extract_word_synset_number]. *)
Inductive synsets_result :=
| Synsets (l : list string)
| SynsetsInfo (l : list (string * option synset_info)).

(** [show_synset_definitions]; [None] is the empty dictionary [{}]. *)
Definition show_synset_definitions (st : RuWordNetInfo) (synset_number : string)
    : option synset_info :=
  match defin_N st !! synset_number with
  | Some d => Some d
  | None =>
      match defin_N st !! synset_number with
      | Some d => Some d
      | None =>
          match defin_N st !! synset_number with
          | Some d => Some d
          | None => None
          end
      end
  end.

Definition extract_word_synset_number (st : RuWordNetInfo) (word : string)
    (full_info : bool) : synsets_result :=
  let found synsets :=
    if full_info then
      SynsetsInfo (map (fun syn => (syn, show_synset_definitions st syn)) synsets)
    else Synsets synsets in
  match word_synset_N st !! word with
  | Some synsets => found synsets
  | None =>
      match word_synset_V st !! word with
      | Some synsets => found synsets
      | None =>
          match word_synset_A st !! word with
          | Some synsets => found synsets
          | None => Synsets ["No such word in RuWordNet"]
          end
      end
  end.

Definition show_synset_words (st : RuWordNetInfo) (synset_number : string) : list_obj :=
  match synset_word_N st !! synset_number with
  | Some _ => Stored Noun synset_number
  | None =>
      match synset_word_V st !! synset_number with
      | Some _ => Stored Verb synset_number
      | None =>
          match synset_word_A st !! synset_number with
          | Some _ => Stored Adj synset_number
          | None => Fresh ["No such synset in the thesaurus"]
          end
      end
  end.

(** One dictionary of the list returned by [show_synonyms]; [synonyms] is
    the list object itself. *)
Record synonym_entry := {
  synset_id : string;
  synonyms : list_obj;
  entry_ruthes_name : string
}.

(** The value returned by [show_synonyms]. *)
Inductive synonyms_result :=
| NoSuchWord (msg : string)
| SynonymEntries (output_info : list synonym_entry).

(** The loop of [show_synonyms] over [synsets]. *)
Fixpoint show_synonyms_loop (word : string) (synsets : list string)
    (st : RuWordNetInfo) (output_info : list synonym_entry)
    : outcome (list synonym_entry) * RuWordNetInfo :=
  match synsets with
  | [] => (Return output_info, st)
  | syn :: synsets' =>
      let synonyms := show_synset_words st syn in
      let '(synonyms, st) :=
        if list_mem word (content st synonyms)
        then remove_in_place st synonyms word
        else (synonyms, st) in
      match show_synset_definitions st syn with
      | None => (Raise (KeyError "ruthes_name"), st)
      | Some d =>
          show_synonyms_loop word synsets' st
            (output_info ++
               [{| synset_id := syn; synonyms := synonyms;
                   entry_ruthes_name := ruthes_name d |}])
      end
  end.

Definition show_synonyms (st : RuWordNetInfo) (word : string)
    : outcome synonyms_result * RuWordNetInfo :=
  let run synsets :=
    match show_synonyms_loop word synsets st [] with
    | (Return output_info, st') => (Return (SynonymEntries output_info), st')
    | (Raise e, st') => (Raise e, st')
    end in
  match word_synset_N st !! word with
  | Some synsets => run synsets
  | None =>
      match word_synset_V st !! word with
      | Some synsets => run synsets
      | None =>
          match word_synset_A st !! word with
          | Some synsets => run synsets
          | None => (Return (NoSuchWord "No such word in RuWordNet"), st)
          end
      end
  end.

(** What the caller sees in a returned entry: the content its list object
    has in the state the call leaves behind. *)
Definition entry_view (st : RuWordNetInfo) (e : synonym_entry)
    : string * list string * string :=
  (synset_id e, content st (synonyms e), entry_ruthes_name e).

Definition show_basic_synset_relations (st : RuWordNetInfo) (synset_number : string)
    : odict (list string) :=
  match basic_relations st !! synset_number with
  | Some rels => rels
  | None => []
  end.

(** The [relations] argument: a string (['all'] by default) or a list of
    relation names. *)
Inductive relations_arg :=
| RelStr (s : string)
| RelList (l : list string).

(** The values of the dictionary built by
    [show_synset_relations_with_words]: word lists, or with
    [print_synsets] one word list per target synset. *)
Definition rel_value (print_synsets : bool) : Type :=
  if print_synsets then odict (list string) else list string.

(** The body of the loop over the target synsets of one relation. *)
Definition add_synset_words (st : RuWordNetInfo) (print_synsets : bool)
    (relation : string) (relatives_dict_words : odict (rel_value print_synsets))
    (syn : string) : odict (rel_value print_synsets) :=
  match print_synsets
        return odict (rel_value print_synsets) → odict (rel_value print_synsets) with
  | true => fun relatives_dict_words =>
      let relatives_dict_words :=
        if mem relatives_dict_words relation then relatives_dict_words
        else set relatives_dict_words relation [] in
      let by_synset := default [] (get relatives_dict_words relation) in
      let by_synset :=
        if mem by_synset syn then by_synset else set by_synset syn [] in
      let by_synset :=
        set by_synset syn
          (default [] (get by_synset syn) ++ content st (show_synset_words st syn)) in
      set relatives_dict_words relation by_synset
  | false => fun relatives_dict_words =>
      let relatives_dict_words :=
        if mem relatives_dict_words relation then relatives_dict_words
        else set relatives_dict_words relation [] in
      set relatives_dict_words relation
        (default [] (get relatives_dict_words relation)
           ++ content st (show_synset_words st syn))
  end relatives_dict_words.

(** The loop over [relatives_dict.items()]. *)
Definition add_relation_words (st : RuWordNetInfo) (print_synsets : bool)
    (relatives_dict_words : odict (rel_value print_synsets))
    (item : string * list string) : odict (rel_value print_synsets) :=
  fold_left (add_synset_words st print_synsets item.1) item.2 relatives_dict_words.

(** [{relation: d[relation] for relation in relations if relation in d}]. *)
Definition restrict_to {V} (d : odict V) (relations : list string) : odict V :=
  fold_left
    (fun final_dict relation =>
       match get d relation with
       | Some v => set final_dict relation v
       | None => final_dict
       end)
    relations [].

Section Relatives.

(** Iteration over a Python [str]: its characters, as strings. *)
Variable chars : string → list string.

Definition show_synset_relations_with_words (st : RuWordNetInfo)
    (synset_number : string) (print_synsets : bool) (relations : relations_arg)
    : odict (rel_value print_synsets) :=
  let relatives_dict := show_basic_synset_relations st synset_number in
  match relatives_dict with
  | [] => []
  | _ :: _ =>
      let relatives_dict_words :=
        fold_left (add_relation_words st print_synsets) relatives_dict [] in
      match relations with
      | RelStr s =>
          if String.eqb s "all" then relatives_dict_words
          else restrict_to relatives_dict_words (chars s)
      | RelList l => restrict_to relatives_dict_words l
      end
  end.

End Relatives.

(** ** Vocabulary scans *)

Section Vocabulary.

Variable lower : string → string.

(** The lines that the progress display of [tqdm_notebook(senses)] writes
    while the loop walks through [senses]; the wrapper hands the records
    on unchanged. *)
Variable tqdm_notebook : list sense → list string.

(** The [senses] tree selected by the [pos] tag, if the tag is valid. *)
Definition senses_of (st : RuWordNetInfo) (pos : string) : option (list sense) :=
  if String.eqb pos "Noun" then Some (senses_N st)
  else if String.eqb pos "Verb" then Some (senses_V st)
  else if String.eqb pos "Adj" then Some (senses_A st)
  else None.

Definition sense_key (output : string) (child : sense) : string :=
  if String.eqb output "lemmas" then lower (s_lemma child) else lower (s_name child).

(** Both scans return their list together with the lines written to the
    output: the line of [print] for an invalid tag, the lines of the
    progress display otherwise. *)
Definition extract_polysesmous_words (st : RuWordNetInfo) (pos output : string)
    : list string * list string :=
  match senses_of st pos with
  | None => ([], ["Invalid POS-tag"])
  | Some senses =>
      (fold_left
         (fun poly_words child =>
            let mean := s_meaning child in
            let name := sense_key output child in
            if negb (list_mem name poly_words) && negb (String.eqb mean "1")
            then poly_words ++ [name] else poly_words)
         senses [],
       tqdm_notebook senses)
  end.

Definition extract_monosesmous_words (st : RuWordNetInfo) (pos output : string)
    : list string * list string :=
  match senses_of st pos with
  | None => ([], ["Invalid POS-tag"])
  | Some senses =>
      (fold_left
         (fun mono_words child =>
            let mean := s_meaning child in
            let name := sense_key output child in
            if negb (list_mem name mono_words) && String.eqb mean "1"
            then mono_words ++ [name] else mono_words)
         senses [],
       tqdm_notebook senses)
  end.

End Vocabulary.

(** * Vocabulary of the statements *)

(** [s] is listed under key [k]. *)
Definition listed (m : gmap string (list string)) (k s : string) : Prop :=
  ∃ l, m !! k = Some l ∧ s ∈ l.

Definition word_synset (st : RuWordNetInfo) (p : partition) : gmap string (list string) :=
  match p with
  | Noun => word_synset_N st
  | Verb => word_synset_V st
  | Adj => word_synset_A st
  end.

Definition file_senses (t : thesaurus) (p : partition) : list sense :=
  match p with
  | Noun => file_senses_N t
  | Verb => file_senses_V t
  | Adj => file_senses_A t
  end.

(** [earlier q p]: the lookups probe partition [q] before [p]. *)
Definition earlier (q p : partition) : bool :=
  match q, p with
  | Noun, Verb | Noun, Adj | Verb, Adj => true
  | _, _ => false
  end.

(** [x] is one of the words returned for [relation]; with [print_synsets]
    it is one of the words returned for [relation] and the target
    [syn]. *)
Definition returned_word (print_synsets : bool) (d : odict (rel_value print_synsets))
    (relation syn x : string) : Prop :=
  match print_synsets return odict (rel_value print_synsets) → Prop with
  | true => fun d => ∃ by_synset ws,
      get d relation = Some by_synset ∧ get by_synset syn = Some ws ∧ x ∈ ws
  | false => fun d => ∃ ws, get d relation = Some ws ∧ x ∈ ws
  end d.

(** The object with every dictionary empty. *)
Definition empty_info : RuWordNetInfo :=
  {| senses_N := []; senses_V := []; senses_A := [];
     synsets_N := []; synsets_V := []; synsets_A := [];
     word_synset_N := ∅; synset_word_N := ∅;
     word_synset_V := ∅; synset_word_V := ∅;
     word_synset_A := ∅; synset_word_A := ∅;
     defin_N := ∅; defin_V := ∅; defin_A := ∅;
     basic_relations := ∅ |}.

(** The object built from example data ([empty_info] if the build
    raises, which none of the examples does). *)
Definition loaded (t : thesaurus) : RuWordNetInfo :=
  match init ascii_lower t with
  | Return st => st
  | Raise _ => empty_info
  end.

(** [relation] passes the [relations] filter. *)
Definition selects (chars : string → list string) (relations : relations_arg)
    (relation : string) : Prop :=
  match relations with
  | RelStr s => if String.eqb s "all" then True else relation ∈ chars s
  | RelList l => relation ∈ l
  end.

(** * Example data *)

(** Three relation records whose first parent comes back after another
    parent. *)
Definition split_parent_relations : thesaurus :=
  {| file_senses_N := []; file_senses_V := []; file_senses_A := [];
     file_synsets_N := []; file_synsets_V := []; file_synsets_A := [];
     file_relations :=
       [[Relation "P1" "hyp" "A"; Relation "P2" "hol" "B"; Relation "P1" "hyp" "C"];
        []; []] |}.

(** One verb with its synset record. *)
Definition one_verb : thesaurus :=
  {| file_senses_N := [];
     file_senses_V := [Sense "бежать" "V1" "1" "бежать"];
     file_senses_A := [];
     file_synsets_N := [];
     file_synsets_V := [Synset "V1" "БЕЖАТЬ" "двигаться бегом"];
     file_synsets_A := [];
     file_relations := [[]; []; []] |}.

(** A noun synset of two words. *)
Definition bow_weapon : thesaurus :=
  {| file_senses_N := [Sense "лук" "N1" "1" "лук"; Sense "оружие" "N1" "1" "оружие"];
     file_senses_V := []; file_senses_A := [];
     file_synsets_N := [Synset "N1" "ЛУК (ОРУЖИЕ)" ""];
     file_synsets_V := []; file_synsets_A := [];
     file_relations := [[]; []; []] |}.

(** A noun synset that lists the same word twice. *)
Definition bow_twice : thesaurus :=
  {| file_senses_N :=
       [Sense "лук" "N1" "1" "лук"; Sense "лук" "N1" "1" "лук";
        Sense "оружие" "N1" "1" "оружие"];
     file_senses_V := []; file_senses_A := [];
     file_synsets_N := [Synset "N1" "ЛУК (ОРУЖИЕ)" ""];
     file_synsets_V := []; file_synsets_A := [];
     file_relations := [[]; []; []] |}.

(** A noun with two senses. *)
Definition house_two_senses : thesaurus :=
  {| file_senses_N := [Sense "дом" "N1" "1" "дом"; Sense "дом" "N2" "2" "дом"];
     file_senses_V := []; file_senses_A := [];
     file_synsets_N := []; file_synsets_V := []; file_synsets_A := [];
     file_relations := [[]; []; []] |}.

(** A noun whose name is capitalised in the data. *)
Definition capitalised_noun : thesaurus :=
  {| file_senses_N := [Sense "Dom" "N1" "1" "dom"];
     file_senses_V := []; file_senses_A := [];
     file_synsets_N := []; file_synsets_V := []; file_synsets_A := [];
     file_relations := [[]; []; []] |}.

(** A word and a synset id that occur both as noun and as verb. *)
Definition noun_and_verb : thesaurus :=
  {| file_senses_N := [Sense "печь" "X1" "1" "печь"];
     file_senses_V := [Sense "печь" "X1" "1" "печь"; Sense "печь" "V2" "2" "печь"];
     file_senses_A := [];
     file_synsets_N := []; file_synsets_V := []; file_synsets_A := [];
     file_relations := [[]; []; []] |}.

(** A relation whose target has no sense record. *)
Definition dangling_relation : thesaurus :=
  {| file_senses_N := [Sense "лук" "N1" "1" "лук"; Sense "оружие" "N2" "1" "оружие"];
     file_senses_V := []; file_senses_A := [];
     file_synsets_N := []; file_synsets_V := []; file_synsets_A := [];
     file_relations :=
       [[Relation "N1" "hypernym" "N2"; Relation "N1" "hypernym" "N9"]; []; []] |}.

(** * Closest relatives of a word *)

(** The dictionary returned by [show_word_closest_relatives]: the
    relatives of the synset that was asked for, or one such dictionary per
    synset of the word. *)
Inductive closest_relatives (print_synsets : bool) :=
| OfSynset (relatives : odict (rel_value print_synsets))
| OfWord (relatives : odict (odict (rel_value print_synsets))).
Arguments OfSynset {print_synsets} relatives.
Arguments OfWord {print_synsets} relatives.

(** The list that [extract_word_synset_number(word)] returns when called
    without [full_info]. *)
Definition synsets_list (r : synsets_result) : list string :=
  match r with
  | Synsets l => l
  | SynsetsInfo l => map fst l
  end.

Section ClosestRelatives.

Variable chars : string → list string.

(** [show_word_closest_relatives]; the second component holds the lines
    printed. *)
Definition show_word_closest_relatives (st : RuWordNetInfo) (word synset : string)
    (relations : relations_arg) (print_synsets : bool)
    : closest_relatives print_synsets * list string :=
  if negb (String.eqb synset "") then
    let synsets := synsets_list (extract_word_synset_number st word false) in
    let printed :=
      if negb (list_mem synset synsets)
      then ["Inconsistence between the given word and the synset! The output will be given for the synset specified in parameters"]
      else [] in
    (OfSynset (show_synset_relations_with_words chars st synset print_synsets relations),
     printed)
  else
    let synsets := synsets_list (extract_word_synset_number st word false) in
    if negb (bool_decide (synsets = ["No such word in RuWordNet"])) then
      (OfWord
         (fold_left
            (fun relatives syn =>
               set relatives syn
                 (show_synset_relations_with_words chars st syn print_synsets relations))
            synsets []),
       [])
    else (OfWord [], []).

End ClosestRelatives.

(** * Further vocabulary of the statements *)

(** [Some l] for a non-empty list, [None] for the empty one: a key whose
    list would be empty is not in the dictionary. *)
Definition nonempty {A} (l : list A) : option (list A) :=
  match l with
  | [] => None
  | _ :: _ => Some l
  end.

(** The number of elements of [l] equal to [x]. *)
Definition occurrences (x : string) (l : list string) : nat :=
  length (filter (fun y => y = x) l).

(** The attributes of a [RuWordNetInfo] object other than the three
    synset-to-words dictionaries. *)
Definition same_but_synset_words (st st' : RuWordNetInfo) : Prop :=
  senses_N st' = senses_N st ∧ senses_V st' = senses_V st ∧ senses_A st' = senses_A st
  ∧ synsets_N st' = synsets_N st ∧ synsets_V st' = synsets_V st
  ∧ synsets_A st' = synsets_A st
  ∧ word_synset_N st' = word_synset_N st ∧ word_synset_V st' = word_synset_V st
  ∧ word_synset_A st' = word_synset_A st
  ∧ defin_N st' = defin_N st ∧ defin_V st' = defin_V st ∧ defin_A st' = defin_A st
  ∧ basic_relations st' = basic_relations st.

(** The children that the relation records [records] give under the
    relation [name], in record order. *)
Definition children_of (name : string) (records : list relation) : list string :=
  map r_child_id (filter (fun r => r_name r = name) records).

(** All relation records of the input, file after file. *)
Definition all_relations (files : list (list relation)) : list relation :=
  concat files.

(** [tag] is one of the part-of-speech tags the scans accept. *)
Definition valid_pos (tag : string) : bool :=
  String.eqb tag "Noun" || String.eqb tag "Verb" || String.eqb tag "Adj".

(** What one relation record adds to the relation dictionary of its
    parent: its child goes to the end of the list of its relation name. *)
Definition add_child (rels : odict (list string)) (r : relation) : odict (list string) :=
  set rels (r_name r) (default [] (get rels (r_name r)) ++ [r_child_id r]).

(** The record [(parent, name, child)] is among [records]. *)
Definition has_edge (records : list relation) (parent name child : string) : Prop :=
  ∃ r, r ∈ records ∧ r_parent_id r = parent ∧ r_name r = name ∧ r_child_id r = child.

#[global] Instance partition_eq_dec : EqDecision partition.
Proof. solve_decision. Defined.

#[global] Instance list_obj_eq_dec : EqDecision list_obj.
Proof. solve_decision. Defined.

(** The synsets stored for a word by the first partition that holds it. *)
Definition word_lookup (st : RuWordNetInfo) (word : string) : option (list string) :=
  match word_synset_N st !! word with
  | Some synsets => Some synsets
  | None =>
      match word_synset_V st !! word with
      | Some synsets => Some synsets
      | None => word_synset_A st !! word
      end
  end.

(** [st'] differs from [st] at most in that stored word lists have lost
    elements: the other attributes are the same, the synset-to-words
    dictionaries have the same keys, and every stored list of [st'] is a
    sublist of the list [st] stores under the same key. *)
Definition only_words_removed (st st' : RuWordNetInfo) : Prop :=
  same_but_synset_words st st'
  ∧ ∀ p syn, option_Forall2 sublist (synset_word st' p !! syn) (synset_word st p !! syn).

(** The state and the list object after one visit of the loop of
    [show_synonyms]. *)
Definition visit (st : RuWordNetInfo) (word syn : string) : list_obj * RuWordNetInfo :=
  let synonyms := show_synset_words st syn in
  if list_mem word (content st synonyms)
  then remove_in_place st synonyms word
  else (synonyms, st).

(** A relation dictionary as the build makes it: no relation name twice,
    no empty list of children. *)
Definition well_formed (rels : odict (list string)) : Prop :=
  NoDup rels.*1 ∧ Forall (fun item => item.2 ≠ []) rels.

(** The words of the target synsets [targets], target after target. *)
Definition words_of_targets (st : RuWordNetInfo) (targets : list string) : list string :=
  concat (map (fun syn => content st (show_synset_words st syn)) targets).

(** The line [show_word_closest_relatives] prints when the synset it is
    given is not a synset of the word. *)
Definition inconsistency_warning : string :=
  "Inconsistence between the given word and the synset! The output will be given for the synset specified in parameters".

(** * Further example data *)

(** Two synset records with the same id. *)
Definition repeated_definition : thesaurus :=
  {| file_senses_N := [Sense "лук" "N1" "1" "лук"];
     file_senses_V := []; file_senses_A := [];
     file_synsets_N := [Synset "N1" "ЛУК" "оружие"; Synset "N2" "ДОМ" "";
                        Synset "N1" "ЛУК (РАСТЕНИЕ)" "овощ"];
     file_synsets_V := []; file_synsets_A := [];
     file_relations := [[]; []; []] |}.


(** A word whose name is written in three ways, as noun and as verb. *)
Definition mixed_case_bake : thesaurus :=
  {| file_senses_N := [Sense "Bake" "N1" "1" "bake"];
     file_senses_V := [Sense "BAKE" "V1" "1" "bake"; Sense "bake" "V2" "2" "bake"];
     file_senses_A := [];
     file_synsets_N := []; file_synsets_V := []; file_synsets_A := [];
     file_relations := [[]; []; []] |}.

(** A progress display that writes one line per record. *)
Definition one_line_per_record (senses : list sense) : list string :=
  map (fun _ => "|") senses.

(** A relation record without parent id at the head of the first file. *)
Definition orphan_relation : relation := Relation "" "hypernym" "N2".

(** Relation records grouped by parent, over two files. *)
Definition grouped_relations : list (list relation) :=
  [[Relation "N1" "hypernym" "N2"; Relation "N1" "domain" "N3";
    Relation "N1" "hypernym" "N4"; Relation "N2" "hyponym" "N1"];
   [Relation "A1" "antonym" "A2"]].

(** * Properties *)

(** ** The word and synset maps *)

Section BuilderFacts.

Variable lower : string → string.

Lemma add_sense_word_lookup acc child k :
  (add_sense lower acc child).1 !! k =
    if decide (lower (s_name child) = k)
    then Some (default [] (acc.1 !! k) ++ [s_synset_id child])
    else acc.1 !! k.
Proof.
  destruct acc as [ws sw]; simpl.
  case_decide as Hk.
  - subst k. rewrite lookup_insert_eq.
    destruct (ws !! lower (s_name child)) eqn:E; simpl.
    + by rewrite E.
    + by rewrite lookup_insert_eq.
  - rewrite lookup_insert_ne by done.
    destruct (ws !! lower (s_name child)); [done|].
    by rewrite lookup_insert_ne.
Qed.

Lemma add_sense_synset_lookup acc child k :
  (add_sense lower acc child).2 !! k =
    if decide (s_synset_id child = k)
    then Some (default [] (acc.2 !! k) ++ [lower (s_name child)])
    else acc.2 !! k.
Proof.
  destruct acc as [ws sw]; simpl.
  case_decide as Hk.
  - subst k. rewrite lookup_insert_eq.
    destruct (sw !! s_synset_id child) eqn:E; simpl.
    + by rewrite E.
    + by rewrite lookup_insert_eq.
  - rewrite lookup_insert_ne by done.
    destruct (sw !! s_synset_id child); [done|].
    by rewrite lookup_insert_ne.
Qed.

Lemma add_sense_word_listed acc child w s :
  listed (add_sense lower acc child).1 w s ↔
    listed acc.1 w s ∨ (w = lower (s_name child) ∧ s = s_synset_id child).
Proof.
  unfold listed. rewrite add_sense_word_lookup.
  case_decide as Hk.
  - subst w. split.
    + intros (l & Hl & Hs). simplify_eq.
      apply elem_of_app in Hs as [Hs | Hs].
      * destruct (acc.1 !! lower (s_name child)) as [l0|]; simpl in Hs.
        -- left. eauto.
        -- by apply elem_of_nil in Hs.
      * apply list_elem_of_singleton in Hs. by right.
    + intros [(l & Hl & Hs) | [_ ->]]; eexists; split; try done.
      * rewrite Hl. simpl. apply elem_of_app. by left.
      * apply elem_of_app. right. by apply list_elem_of_singleton.
  - split; [by left|].
    intros [H | [H _]]; [done | by subst].
Qed.

Lemma add_sense_synset_listed acc child s w :
  listed (add_sense lower acc child).2 s w ↔
    listed acc.2 s w ∨ (w = lower (s_name child) ∧ s = s_synset_id child).
Proof.
  unfold listed. rewrite add_sense_synset_lookup.
  case_decide as Hk.
  - subst s. split.
    + intros (l & Hl & Hs). simplify_eq.
      apply elem_of_app in Hs as [Hs | Hs].
      * destruct (acc.2 !! s_synset_id child) as [l0|]; simpl in Hs.
        -- left. eauto.
        -- by apply elem_of_nil in Hs.
      * apply list_elem_of_singleton in Hs. by right.
    + intros [(l & Hl & Hs) | [-> _]]; eexists; split; try done.
      * rewrite Hl. simpl. apply elem_of_app. by left.
      * apply elem_of_app. right. by apply list_elem_of_singleton.
  - split; [by left|].
    intros [H | [_ H]]; [done | by subst].
Qed.

(** What the loop of [create_word_synset_map] adds to its two
    dictionaries. *)
Lemma fold_add_sense_listed senses acc w s :
  (listed (fold_left (add_sense lower) senses acc).1 w s ↔
     listed acc.1 w s ∨
     ∃ r, r ∈ senses ∧ w = lower (s_name r) ∧ s = s_synset_id r)
  ∧ (listed (fold_left (add_sense lower) senses acc).2 s w ↔
     listed acc.2 s w ∨
     ∃ r, r ∈ senses ∧ w = lower (s_name r) ∧ s = s_synset_id r).
Proof.
  revert acc. induction senses as [|child senses IH]; intros acc; simpl.
  - split; (split; [by left|]); intros [H | (r & Hr & _)]; try done;
      by apply elem_of_nil in Hr.
  - destruct (IH (add_sense lower acc child)) as [IH1 IH2].
    rewrite IH1, IH2, add_sense_word_listed, add_sense_synset_listed.
    split; split.
    + intros [[H | [-> ->]] | (r & Hr & H)]; [by left | right .. ].
      * exists child. split; [apply elem_of_cons; by left | done].
      * exists r. split; [apply elem_of_cons; by right | done].
    + intros [H | (r & Hr & H)]; [by left; left|].
      apply elem_of_cons in Hr as [-> | Hr]; [left; by right | right; eauto].
    + intros [[H | [-> ->]] | (r & Hr & H)]; [by left | right .. ].
      * exists child. split; [apply elem_of_cons; by left | done].
      * exists r. split; [apply elem_of_cons; by right | done].
    + intros [H | (r & Hr & H)]; [by left; left|].
      apply elem_of_cons in Hr as [-> | Hr]; [left; by right | right; eauto].
Qed.

Lemma listed_empty k s : ¬ listed ∅ k s.
Proof. intros (l & Hl & _). by rewrite lookup_empty in Hl. Qed.

Lemma create_word_synset_map_word senses w s :
  listed (create_word_synset_map lower senses).1 w s ↔
    ∃ r, r ∈ senses ∧ w = lower (s_name r) ∧ s = s_synset_id r.
Proof.
  unfold create_word_synset_map.
  rewrite (proj1 (fold_add_sense_listed senses (∅, ∅) w s)).
  split; [intros [H | H]; [by apply listed_empty in H | done] | by right].
Qed.

Lemma create_word_synset_map_synset senses w s :
  listed (create_word_synset_map lower senses).2 s w ↔
    ∃ r, r ∈ senses ∧ w = lower (s_name r) ∧ s = s_synset_id r.
Proof.
  unfold create_word_synset_map.
  rewrite (proj2 (fold_add_sense_listed senses (∅, ∅) w s)).
  split; [intros [H | H]; [by apply listed_empty in H | done] | by right].
Qed.

(** Every key of the word map has a non-empty list, so a key is the
    lower-cased name of some record. *)
Lemma fold_add_sense_nonempty senses acc :
  (∀ k l, acc.1 !! k = Some l → l ≠ []) →
  ∀ k l, (fold_left (add_sense lower) senses acc).1 !! k = Some l → l ≠ [].
Proof.
  revert acc. induction senses as [|child senses IH]; intros acc Hacc; simpl; [done|].
  apply IH. intros k l. rewrite add_sense_word_lookup.
  case_decide; [|by apply Hacc].
  intros [= <-]. by destruct (default [] (acc.1 !! k)).
Qed.

Lemma create_word_synset_map_key senses w l :
  (create_word_synset_map lower senses).1 !! w = Some l →
  ∃ r, r ∈ senses ∧ w = lower (s_name r).
Proof.
  intros Hl.
  assert (l ≠ []) as Hne.
  { eapply (fold_add_sense_nonempty senses (∅, ∅)); [|exact Hl].
    intros k l'. simpl. by rewrite lookup_empty. }
  destruct l as [|s l]; [done|].
  destruct (proj1 (create_word_synset_map_word senses w s)) as (r & Hr & -> & _).
  - exists (s :: l). split; [done | apply elem_of_cons; by left].
  - eauto.
Qed.

End BuilderFacts.

Lemma init_maps lower t st p :
  init lower t = Return st →
  word_synset st p = (create_word_synset_map lower (file_senses t p)).1
  ∧ synset_word st p = (create_word_synset_map lower (file_senses t p)).2.
Proof.
  unfold init.
  destruct (create_word_synset_map lower (file_senses_N t)) as [wN sN] eqn:EN.
  destruct (create_word_synset_map lower (file_senses_V t)) as [wV sV] eqn:EV.
  destruct (create_word_synset_map lower (file_senses_A t)) as [wA sA] eqn:EA.
  destruct (get_basic_relations (file_relations t)); [|done].
  intros [= <-]. destruct p; simpl; by rewrite ?EN, ?EV, ?EA.
Qed.

Lemma extract_word_synset_number_first st p word l :
  word_synset st p !! word = Some l →
  (∀ q, earlier q p = true → word_synset st q !! word = None) →
  extract_word_synset_number st word false = Synsets l.
Proof.
  intros Hl Hq. unfold extract_word_synset_number.
  destruct p; simpl in Hl.
  - by rewrite Hl.
  - rewrite (Hq Noun eq_refl : word_synset_N st !! word = None). by rewrite Hl.
  - rewrite (Hq Noun eq_refl : word_synset_N st !! word = None).
    rewrite (Hq Verb eq_refl : word_synset_V st !! word = None). by rewrite Hl.
Qed.

Lemma show_synset_words_first st p synset_number l :
  synset_word st p !! synset_number = Some l →
  (∀ q, earlier q p = true → synset_word st q !! synset_number = None) →
  show_synset_words st synset_number = Stored p synset_number
  ∧ content st (show_synset_words st synset_number) = l.
Proof.
  intros Hl Hq.
  assert (show_synset_words st synset_number = Stored p synset_number) as ->.
  { unfold show_synset_words. destruct p; simpl in Hl.
    - by rewrite Hl.
    - rewrite (Hq Noun eq_refl : synset_word_N st !! synset_number = None). by rewrite Hl.
    - rewrite (Hq Noun eq_refl : synset_word_N st !! synset_number = None).
      rewrite (Hq Verb eq_refl : synset_word_V st !! synset_number = None). by rewrite Hl. }
  split; [done|]. simpl. by rewrite Hl.
Qed.

(** A key held by some partition is resolved in the first partition that
    holds it. *)
Lemma extract_word_synset_number_found st p word l :
  word_synset st p !! word = Some l →
  ∃ p' l', extract_word_synset_number st word false = Synsets l'
           ∧ word_synset st p' !! word = Some l'.
Proof.
  intros Hl. unfold extract_word_synset_number.
  destruct (word_synset_N st !! word) as [lN|] eqn:EN; [by exists Noun, lN|].
  destruct (word_synset_V st !! word) as [lV|] eqn:EV; [by exists Verb, lV|].
  destruct (word_synset_A st !! word) as [lA|] eqn:EA; [by exists Adj, lA|].
  destruct p; simpl in Hl; congruence.
Qed.

(** ** Relation adjacency *)

(** C1. On the records [(P1,hyp,A), (P2,hol,B), (P1,hyp,C)] the build
    succeeds, the relations of [P2] are [{hol: [B]}], but the relations of
    [P1] are [{hyp: [C]}]: the first edge is lost when [P1] comes back
    after [P2], so children are grouped by run of equal [parent_id], not by
    equality of [parent_id]. *)
Theorem get_basic_relations_split_parent :
  ∃ st, init ascii_lower split_parent_relations = Return st
        ∧ show_basic_synset_relations st "P1" = [("hyp", ["C"])]
        ∧ show_basic_synset_relations st "P2" = [("hol", ["B"])].
Proof. eexists. split; [vm_compute; reflexivity|]. split; vm_compute; reflexivity. Qed.

(** ** Definitions *)

(** C2. A synset id stored in the verb definition map only is not found by
    [show_synset_definitions]: the empty dictionary comes back although
    [defin_V] holds a definition for it. *)
Theorem show_synset_definitions_misses_verb :
  ∃ st, init ascii_lower one_verb = Return st
        ∧ defin_V st !! "V1" = Some (SynsetInfo "БЕЖАТЬ" "двигаться бегом")
        ∧ show_synset_definitions st "V1" = None.
Proof. eexists. split; [vm_compute; reflexivity|]. split; vm_compute; reflexivity. Qed.

(** [show_synset_definitions] is a lookup in [defin_N] alone. *)
Lemma show_synset_definitions_noun_only st synset_number :
  show_synset_definitions st synset_number = defin_N st !! synset_number.
Proof. unfold show_synset_definitions. by destruct (defin_N st !! synset_number). Qed.

(** ** Synonyms *)

(** C3. [show_synonyms] changes the stored word list of a synset: the
    words of [N1] are [лук, оружие] before [show_synonyms "лук"] and
    [оружие] after it. *)
Theorem show_synonyms_changes_synset_words :
  ∃ st st' r, init ascii_lower bow_weapon = Return st
    ∧ content st (show_synset_words st "N1") = ["лук"; "оружие"]
    ∧ show_synonyms st "лук" = (Return r, st')
    ∧ content st' (show_synset_words st' "N1") = ["оружие"].
Proof.
  eexists _, _, _. split; [vm_compute; reflexivity|].
  split; [vm_compute; reflexivity|].
  split; vm_compute; reflexivity.
Qed.

(** C6. For a verb whose synset has its definition in the verb definition
    map, [show_synonyms] raises [KeyError] instead of returning. *)
Theorem show_synonyms_raises_on_verb :
  ∃ st st', init ascii_lower one_verb = Return st
    ∧ extract_word_synset_number st "бежать" false = Synsets ["V1"]
    ∧ show_synonyms st "бежать" = (Raise (KeyError "ruthes_name"), st').
Proof.
  eexists _, _. split; [vm_compute; reflexivity|].
  split; vm_compute; reflexivity.
Qed.

(** The failure does not depend on the example: whenever the first synset
    of a noun has no entry in [defin_N], the call raises. *)
Lemma show_synonyms_raises_without_noun_definition st word syn synsets :
  word_synset_N st !! word = Some (syn :: synsets) →
  defin_N st !! syn = None →
  ∃ st', show_synonyms st word = (Raise (KeyError "ruthes_name"), st').
Proof.
  intros Hw Hd. unfold show_synonyms. rewrite Hw. simpl.
  destruct (list_mem word (content st (show_synset_words st syn))).
  - destruct (show_synset_words st syn) as [p s|l]; simpl;
      rewrite show_synset_definitions_noun_only.
    + destruct p; simpl; rewrite Hd; eauto.
    + rewrite Hd; eauto.
  - rewrite show_synset_definitions_noun_only, Hd. eauto.
Qed.

(** C8. When the stored word list of [N1] is [лук, лук, оружие], the
    query [лук] resolves to [N1] twice, both visits remove one occurrence
    from the same stored list, and both returned entries show
    [оружие] alone: every occurrence of the query word is gone. *)
Theorem show_synonyms_removes_every_occurrence :
  ∃ st st' output_info, init ascii_lower bow_twice = Return st
    ∧ content st (show_synset_words st "N1") = ["лук"; "лук"; "оружие"]
    ∧ extract_word_synset_number st "лук" false = Synsets ["N1"; "N1"]
    ∧ show_synonyms st "лук" = (Return (SynonymEntries output_info), st')
    ∧ map (entry_view st') output_info =
        [("N1", ["оружие"], "ЛУК (ОРУЖИЕ)"); ("N1", ["оружие"], "ЛУК (ОРУЖИЕ)")].
Proof.
  eexists _, _, _. split; [vm_compute; reflexivity|].
  split; [vm_compute; reflexivity|].
  split; [vm_compute; reflexivity|].
  split; vm_compute; reflexivity.
Qed.

(** ** Vocabulary scans *)

(** C5. For the two noun sense records of [дом] with meanings [1] and [2],
    both scans return [дом]: the word counted as polysemous is also
    returned as monosemous. Besides the progress display nothing is
    written. *)
Theorem polysemous_and_monosemous_overlap :
  ∃ st, init ascii_lower house_two_senses = Return st
    ∧ ∀ tqdm_notebook,
        extract_polysesmous_words ascii_lower tqdm_notebook st "Noun" "lemmas"
          = (["дом"], tqdm_notebook (senses_N st))
        ∧ extract_monosesmous_words ascii_lower tqdm_notebook st "Noun" "lemmas"
          = (["дом"], tqdm_notebook (senses_N st)).
Proof.
  eexists. split; [vm_compute; reflexivity|].
  intros tqdm_notebook. split; vm_compute; reflexivity.
Qed.

(** ** Ordered dictionaries *)

Lemma get_set_eq {V} (d : odict V) k v : get (set d k v) k = Some v.
Proof.
  induction d as [|[k' v'] d IH]; simpl.
  - by rewrite String.eqb_refl.
  - destruct (String.eqb k' k) eqn:E; simpl; by rewrite E.
Qed.

Lemma get_set_ne {V} (d : odict V) k k' v : k ≠ k' → get (set d k v) k' = get d k'.
Proof.
  intros Hne. induction d as [|[k0 v0] d IH]; simpl.
  - by apply String.eqb_neq in Hne as ->.
  - destruct (String.eqb k0 k) eqn:E; simpl; [|by rewrite IH].
    apply String.eqb_eq in E as ->.
    by apply String.eqb_neq in Hne as ->.
Qed.

Lemma get_Some_elem_of {V} (d : odict V) k v : get d k = Some v → (k, v) ∈ d.
Proof.
  induction d as [|[k0 v0] d IH]; simpl; [done|].
  destruct (String.eqb k0 k) eqn:E.
  - apply String.eqb_eq in E as ->. intros [= ->]. apply elem_of_cons. by left.
  - intros H. apply elem_of_cons. right. by apply IH.
Qed.

Lemma mem_set_default {V} (d : odict V) k v :
  get (if mem d k then d else set d k v) k = Some (default v (get d k)).
Proof.
  unfold mem. destruct (get d k) eqn:E; simpl; [done|]. apply get_set_eq.
Qed.

Lemma mem_set_default_ne {V} (d : odict V) k k' v :
  k ≠ k' → get (if mem d k then d else set d k v) k' = get d k'.
Proof. intros Hne. destruct (mem d k); [done|]. by apply get_set_ne. Qed.

(** ** Words behind relations *)

Lemma add_synset_words_keeps st b relation' d syn' relation syn x :
  returned_word b d relation syn x →
  returned_word b (add_synset_words st b relation' d syn') relation syn x.
Proof.
  destruct b; simpl.
  - intros (by_synset & ws & Hd & Hs & Hx).
    destruct (decide (relation' = relation)) as [->|Hne].
    + rewrite get_set_eq, mem_set_default, Hd. simpl.
      destruct (decide (syn' = syn)) as [->|Hs'].
      * eexists. exists (ws ++ content st (show_synset_words st syn)).
        split; [done|]. rewrite get_set_eq. split; [|apply elem_of_app; by left].
        unfold mem. by rewrite Hs; simpl; rewrite Hs.
      * eexists. exists ws. split; [done|]. split; [|done].
        rewrite get_set_ne by done.
        destruct (mem by_synset syn'); [done|]. by rewrite get_set_ne.
    + exists by_synset, ws. rewrite get_set_ne by done.
      by rewrite mem_set_default_ne.
  - intros (ws & Hd & Hx).
    destruct (decide (relation' = relation)) as [->|Hne].
    + rewrite get_set_eq. eexists. split; [done|].
      rewrite mem_set_default, Hd. apply elem_of_app. by left.
    + exists ws. rewrite get_set_ne by done. by rewrite mem_set_default_ne.
Qed.

Lemma add_synset_words_adds st b relation d syn x :
  x ∈ content st (show_synset_words st syn) →
  returned_word b (add_synset_words st b relation d syn) relation syn x.
Proof.
  intros Hx. destruct b; simpl.
  - rewrite get_set_eq. eexists _, _. split; [done|]. rewrite get_set_eq.
    split; [done|]. apply elem_of_app. by right.
  - rewrite get_set_eq. eexists. split; [done|]. apply elem_of_app. by right.
Qed.

Lemma fold_add_synset_words_keeps st b relation' synsets d relation syn x :
  returned_word b d relation syn x →
  returned_word b (fold_left (add_synset_words st b relation') synsets d) relation syn x.
Proof.
  revert d. induction synsets as [|s synsets IH]; intros d Hd; simpl; [done|].
  by apply IH, add_synset_words_keeps.
Qed.

Lemma fold_add_synset_words_adds st b relation synsets d syn x :
  syn ∈ synsets →
  x ∈ content st (show_synset_words st syn) →
  returned_word b (fold_left (add_synset_words st b relation) synsets d) relation syn x.
Proof.
  revert d. induction synsets as [|s synsets IH]; intros d Hin Hx; simpl.
  - by apply elem_of_nil in Hin.
  - apply elem_of_cons in Hin as [<- | Hin]; [|by apply IH].
    by apply fold_add_synset_words_keeps, add_synset_words_adds.
Qed.

Lemma fold_add_relation_words_keeps st b items d relation syn x :
  returned_word b d relation syn x →
  returned_word b (fold_left (add_relation_words st b) items d) relation syn x.
Proof.
  revert d. induction items as [|item items IH]; intros d Hd; simpl; [done|].
  by apply IH, fold_add_synset_words_keeps.
Qed.

Lemma fold_add_relation_words_adds st b items d relation synsets syn x :
  (relation, synsets) ∈ items →
  syn ∈ synsets →
  x ∈ content st (show_synset_words st syn) →
  returned_word b (fold_left (add_relation_words st b) items d) relation syn x.
Proof.
  revert d. induction items as [|item items IH]; intros d Hin Hs Hx; simpl.
  - by apply elem_of_nil in Hin.
  - apply elem_of_cons in Hin as [<- | Hin]; [|by apply IH].
    by apply fold_add_relation_words_keeps, fold_add_synset_words_adds.
Qed.

Lemma restrict_to_fold {V} (d : odict V) relations final relation :
  get final relation = None ∨ get final relation = get d relation →
  relation ∈ relations ∨ get final relation = get d relation →
  get (fold_left
         (fun final_dict relation =>
            match get d relation with
            | Some v => set final_dict relation v
            | None => final_dict
            end)
         relations final) relation = get d relation.
Proof.
  revert final. induction relations as [|a relations IH]; intros final H1 H2; simpl.
  - destruct H2 as [H2|H2]; [by apply elem_of_nil in H2 | done].
  - apply IH.
    + destruct (get d a) as [v|] eqn:Ea; [|done].
      destruct (decide (a = relation)) as [->|Hne].
      * right. by rewrite get_set_eq.
      * by rewrite get_set_ne.
    + destruct H2 as [H2|H2].
      * apply elem_of_cons in H2 as [->|H2]; [|by left].
        right. destruct (get d a) as [v|] eqn:Ea; [by rewrite get_set_eq|].
        destruct H1 as [H1|H1]; congruence.
      * right. destruct (get d a) as [v|] eqn:Ea; [|done].
        destruct (decide (a = relation)) as [->|Hne].
        -- by rewrite get_set_eq.
        -- by rewrite get_set_ne.
Qed.

Lemma restrict_to_get {V} (d : odict V) relations relation :
  relation ∈ relations → get (restrict_to d relations) relation = get d relation.
Proof. intros Hin. apply restrict_to_fold; [by left | by left]. Qed.

Lemma returned_word_get b d d' relation syn x :
  get d' relation = get d relation →
  returned_word b d relation syn x → returned_word b d' relation syn x.
Proof. destruct b; simpl; intros ->; done. Qed.

Lemma show_synset_words_unknown st synset_number :
  synset_word_N st !! synset_number = None →
  synset_word_V st !! synset_number = None →
  synset_word_A st !! synset_number = None →
  show_synset_words st synset_number = Fresh ["No such synset in the thesaurus"].
Proof. intros HN HV HA. unfold show_synset_words. by rewrite HN, HV, HA. Qed.

(** C10. If a synset has a relation edge to a target that none of the
    three synset-to-words maps knows, the words returned for that relation
    contain the text [No such synset in the thesaurus]; this holds in both
    output shapes and for every filter that lets the relation through. *)
Theorem relations_with_words_unknown_target
    chars st synset_number print_synsets relations rels relation targets target :
  basic_relations st !! synset_number = Some rels →
  get rels relation = Some targets →
  target ∈ targets →
  synset_word_N st !! target = None →
  synset_word_V st !! target = None →
  synset_word_A st !! target = None →
  selects chars relations relation →
  returned_word print_synsets
    (show_synset_relations_with_words chars st synset_number print_synsets relations)
    relation target "No such synset in the thesaurus".
Proof.
  intros Hrels Hget Hin HN HV HA Hsel.
  pose proof (get_Some_elem_of _ _ _ Hget) as Hitem.
  assert (returned_word print_synsets
            (fold_left (add_relation_words st print_synsets) rels [])
            relation target "No such synset in the thesaurus") as Hall.
  { eapply fold_add_relation_words_adds; [exact Hitem | exact Hin |].
    rewrite show_synset_words_unknown by done. simpl.
    apply elem_of_cons. by left. }
  unfold show_synset_relations_with_words, show_basic_synset_relations.
  rewrite Hrels.
  destruct rels as [|item rels]; [by apply elem_of_nil in Hitem|].
  destruct relations as [s|l]; simpl in Hsel.
  - destruct (String.eqb s "all"); [done|].
    eapply returned_word_get; [|exact Hall]. by apply restrict_to_get.
  - eapply returned_word_get; [|exact Hall]. by apply restrict_to_get.
Qed.

Lemma relations_with_words_unknown_target_witness :
  (basic_relations (loaded dangling_relation) !! "N1"
     = Some [("hypernym", ["N2"; "N9"])]
   ∧ synset_word_N (loaded dangling_relation) !! "N9" = None)
  ∧ show_synset_relations_with_words (fun _ => []) (loaded dangling_relation)
      "N1" false (RelStr "all")
    = [("hypernym", ["оружие"; "No such synset in the thesaurus"])]
  ∧ returned_word false
      (show_synset_relations_with_words (fun _ => []) (loaded dangling_relation)
         "N1" false (RelStr "all"))
      "hypernym" "N9" "No such synset in the thesaurus".
Proof.
  split; [split; vm_compute; reflexivity|].
  split; [vm_compute; reflexivity|].
  apply (relations_with_words_unknown_target (fun _ => []) (loaded dangling_relation)
           "N1" false (RelStr "all") [("hypernym", ["N2"; "N9"])] "hypernym"
           ["N2"; "N9"] "N9").
  - vm_compute; reflexivity.
  - reflexivity.
  - apply elem_of_cons; right; apply elem_of_cons; left; reflexivity.
  - vm_compute; reflexivity.
  - vm_compute; reflexivity.
  - vm_compute; reflexivity.
  - exact I.
Defined.

(** ** Resolution order *)



(** ** Case of the query word *)

(** C4, as stated, fails: the record named [Dom] is stored under [dom];
    the query [Dom] is answered with the not-found list and the query
    [dom] with [N1]. *)
Lemma extract_word_synset_number_case_sensitive :
  extract_word_synset_number (loaded capitalised_noun) "Dom" false
    = Synsets ["No such word in RuWordNet"]
  ∧ extract_word_synset_number (loaded capitalised_noun) (ascii_lower "Dom") false
    = Synsets ["N1"]
  ∧ ¬ (∀ w, extract_word_synset_number (loaded capitalised_noun) w false
            = extract_word_synset_number (loaded capitalised_noun) (ascii_lower w) false).
Proof.
  split; [vm_compute; reflexivity|]. split; [vm_compute; reflexivity|].
  intros H. specialize (H "Dom"). vm_compute in H. discriminate H.
Qed.

(** C4, amended. [extract_word_synset_number] looks the query up as it is
    given, among keys that were lower-cased by the build. On a built
    object: every record of a sense file is stored under the lower-cased
    form of its name in the word map of its partition; a query that is a
    key of some partition gets the list of the first partition (noun, verb,
    adjective) that holds exactly that key; and a query that is not itself
    the lower-cased name of a record gets the not-found list, also when
    its lower-cased form is a key: the query is not case-folded. *)
Theorem extract_word_synset_number_exact lower t st :
  init lower t = Return st →
  (∀ p r, r ∈ file_senses t p →
          ∃ l, word_synset st p !! lower (s_name r) = Some l ∧ s_synset_id r ∈ l)
  ∧ (∀ p w l,
       word_synset st p !! w = Some l →
       (∀ q, earlier q p = true → word_synset st q !! w = None) →
       extract_word_synset_number st w false = Synsets l)
  ∧ (∀ w,
       (∀ p r, r ∈ file_senses t p → lower (s_name r) ≠ w) →
       extract_word_synset_number st w false = Synsets ["No such word in RuWordNet"]).
Proof.
  intros Hinit. split; [|split].
  - intros p r Hr. destruct (init_maps lower t st p Hinit) as [Hws _].
    rewrite Hws. apply create_word_synset_map_word. by exists r.
  - intros p w l Hl Hq. by eapply extract_word_synset_number_first.
  - intros w Hw.
    assert (∀ p, word_synset st p !! w = None) as Hnone.
    { intros p. destruct (word_synset st p !! w) as [l|] eqn:E; [|done].
      destruct (init_maps lower t st p Hinit) as [Hws _]. rewrite Hws in E.
      apply create_word_synset_map_key in E as (r & Hr & ->).
      by destruct (Hw p r Hr). }
    unfold extract_word_synset_number.
    by rewrite (Hnone Noun : word_synset_N st !! w = None),
               (Hnone Verb : word_synset_V st !! w = None),
               (Hnone Adj : word_synset_A st !! w = None).
Qed.

Lemma extract_word_synset_number_exact_witness :
  init ascii_lower mixed_case_bake = Return (loaded mixed_case_bake)
  ∧ (∃ l, word_synset (loaded mixed_case_bake) Verb !! ascii_lower "BAKE" = Some l
          ∧ "V1" ∈ l)
  ∧ word_synset (loaded mixed_case_bake) Verb !! "bake" = Some ["V1"; "V2"]
  ∧ extract_word_synset_number (loaded mixed_case_bake) "bake" false = Synsets ["N1"]
  ∧ extract_word_synset_number (loaded mixed_case_bake) "Bake" false
    = Synsets ["No such word in RuWordNet"].
Proof.
  assert (init ascii_lower mixed_case_bake = Return (loaded mixed_case_bake)) as H
    by (vm_compute; reflexivity).
  split; [exact H|].
  destruct (extract_word_synset_number_exact ascii_lower mixed_case_bake
              (loaded mixed_case_bake) H) as (Hstored & Hfirst & Hmissing).
  split; [|split; [|split]].
  - apply (Hstored Verb (Sense "BAKE" "V1" "1" "bake")).
    apply elem_of_cons; left; reflexivity.
  - vm_compute; reflexivity.
  - apply (Hfirst Noun "bake" ["N1"]); [vm_compute; reflexivity|].
    intros [] Hq; discriminate Hq.
  - apply Hmissing. intros p r Hr.
    destruct p; simpl in Hr;
      repeat (apply elem_of_cons in Hr as [-> | Hr]; [discriminate|]);
      by apply elem_of_nil in Hr.
Defined.

(** ** Inverse index *)

(** C9, as stated, fails: the record named [Dom] with synset [N1] is
    ingested, yet [N1] is not in the list returned for the query [Dom]. *)
Lemma inverse_index_fails_on_capitalised_name :
  Sense "Dom" "N1" "1" "dom" ∈ file_senses_N capitalised_noun
  ∧ extract_word_synset_number (loaded capitalised_noun) "Dom" false
    = Synsets ["No such word in RuWordNet"]
  ∧ ¬ (∃ l, extract_word_synset_number (loaded capitalised_noun) "Dom" false = Synsets l
            ∧ "N1" ∈ l).
Proof.
  split; [apply elem_of_cons; left; reflexivity|].
  assert (extract_word_synset_number (loaded capitalised_noun) "Dom" false
          = Synsets ["No such word in RuWordNet"]) as E by (vm_compute; reflexivity).
  split; [exact E|].
  intros (l & Hl & Hin). rewrite E in Hl. injection Hl as <-.
  apply elem_of_cons in Hin as [Hin | Hin]; [discriminate Hin | by apply elem_of_nil in Hin].
Qed.

(** A second way C9 fails: a verb record whose word is also a noun is
    hidden by the noun partition. *)
Lemma inverse_index_fails_on_shadowed_verb :
  Sense "печь" "V2" "2" "печь" ∈ file_senses_V noun_and_verb
  ∧ extract_word_synset_number (loaded noun_and_verb) "печь" false = Synsets ["X1"].
Proof. split; [apply elem_of_cons; right; apply elem_of_cons; left; reflexivity|].
  vm_compute; reflexivity. Qed.

(** C9, amended. For every record of a partition's sense file, the
    partition's word map lists the synset id under the lower-cased name and
    its synset map lists the lower-cased name under the synset id, and the
    two maps list each other's entries; [extract_word_synset_number] on the
    lower-cased name returns a list with the synset id when no earlier
    partition holds that word, and [show_synset_words] on the synset id
    returns a list with the lower-cased name when no earlier partition
    holds that synset id. *)
Theorem inverse_index lower t st p r :
  init lower t = Return st →
  r ∈ file_senses t p →
  (listed (word_synset st p) (lower (s_name r)) (s_synset_id r)
   ∧ listed (synset_word st p) (s_synset_id r) (lower (s_name r))
   ∧ ∀ w s, listed (word_synset st p) w s ↔ listed (synset_word st p) s w)
  ∧ ((∀ q, earlier q p = true → word_synset st q !! lower (s_name r) = None) →
     ∃ l, extract_word_synset_number st (lower (s_name r)) false = Synsets l
          ∧ s_synset_id r ∈ l)
  ∧ ((∀ q, earlier q p = true → synset_word st q !! s_synset_id r = None) →
     lower (s_name r) ∈ content st (show_synset_words st (s_synset_id r))).
Proof.
  intros Hinit Hr.
  destruct (init_maps lower t st p Hinit) as [Hws Hsw].
  assert (listed (word_synset st p) (lower (s_name r)) (s_synset_id r)) as Hw.
  { rewrite Hws. apply create_word_synset_map_word. by exists r. }
  assert (listed (synset_word st p) (s_synset_id r) (lower (s_name r))) as Hs.
  { rewrite Hsw. apply create_word_synset_map_synset. by exists r. }
  split; [split; [done | split; [done|]]|split].
  - intros w s. rewrite Hws, Hsw.
    by rewrite create_word_synset_map_word, create_word_synset_map_synset.
  - intros Hq. destruct Hw as (l & Hl & Hin). exists l. split; [|done].
    by eapply extract_word_synset_number_first.
  - intros Hq. destruct Hs as (l & Hl & Hin).
    destruct (show_synset_words_first st p _ l Hl Hq) as [_ ->]. done.
Qed.

Lemma inverse_index_witness :
  (init ascii_lower one_verb = Return (loaded one_verb)
   ∧ Sense "бежать" "V1" "1" "бежать" ∈ file_senses one_verb Verb)
  ∧ (∃ l, extract_word_synset_number (loaded one_verb) (ascii_lower "бежать") false
          = Synsets l ∧ "V1" ∈ l)
  ∧ ascii_lower "бежать"
      ∈ content (loaded one_verb) (show_synset_words (loaded one_verb) "V1").
Proof.
  assert (init ascii_lower one_verb = Return (loaded one_verb)) as H1
    by (vm_compute; reflexivity).
  assert (Sense "бежать" "V1" "1" "бежать" ∈ file_senses one_verb Verb) as H2
    by (apply elem_of_cons; left; reflexivity).
  split; [done|].
  destruct (inverse_index ascii_lower one_verb (loaded one_verb) Verb
              (Sense "бежать" "V1" "1" "бежать") H1 H2) as (_ & Hres & Hwords).
  split.
  - apply Hres. intros [] Hq; try discriminate Hq. vm_compute; reflexivity.
  - apply Hwords. intros [] Hq; try discriminate Hq. vm_compute; reflexivity.
Defined.
(** * Further properties *)

(** ** Lists of strings *)

Lemma list_mem_elem_of x l : list_mem x l = true ↔ x ∈ l.
Proof.
  induction l as [|y l IH]; simpl.
  - split; [done | intros H; by apply elem_of_nil in H].
  - destruct (String.eqb y x) eqn:E.
    + apply String.eqb_eq in E as ->. split; [intros _; apply elem_of_cons; by left | done].
    + apply String.eqb_neq in E. rewrite IH, elem_of_cons.
      split; [by right | intros [H | H]; [by subst | done]].
Qed.

Lemma list_mem_false x l : list_mem x l = false ↔ x ∉ l.
Proof.
  rewrite <- list_mem_elem_of. destruct (list_mem x l); split; try done.
Qed.

(** ** Record order in the word and synset maps *)

Section RecordOrder.

Variable lower : string → string.

Lemma fold_add_sense_word_filter senses acc w :
  (fold_left (add_sense lower) senses acc).1 !! w =
    match map s_synset_id (filter (fun r => lower (s_name r) = w) senses) with
    | [] => acc.1 !! w
    | l => Some (default [] (acc.1 !! w) ++ l)
    end.
Proof.
  revert acc. induction senses as [|child senses IH]; intros acc; [done|].
  simpl fold_left. rewrite IH, add_sense_word_lookup.
  destruct (decide (lower (s_name child) = w)) as [E|E].
  - rewrite filter_cons_True by done. simpl.
    destruct (map s_synset_id (filter _ senses)) as [|x l]; [done|].
    simpl. by rewrite <- app_assoc.
  - by rewrite filter_cons_False by done.
Qed.

Lemma fold_add_sense_synset_filter senses acc s :
  (fold_left (add_sense lower) senses acc).2 !! s =
    match map (fun r => lower (s_name r))
              (filter (fun r => s_synset_id r = s) senses) with
    | [] => acc.2 !! s
    | l => Some (default [] (acc.2 !! s) ++ l)
    end.
Proof.
  revert acc. induction senses as [|child senses IH]; intros acc; [done|].
  simpl fold_left. rewrite IH, add_sense_synset_lookup.
  destruct (decide (s_synset_id child = s)) as [E|E].
  - rewrite filter_cons_True by done. simpl.
    destruct (map _ (filter _ senses)) as [|x l]; [done|].
    simpl. by rewrite <- app_assoc.
  - by rewrite filter_cons_False by done.
Qed.

(** X1. The list stored for a word holds the synset ids of exactly the
    records with that lower-cased name, in record order and with
    repetitions; the list stored for a synset id holds the lower-cased
    names of exactly the records with that id, likewise. A key is present
    only if some record gives it. *)
Theorem create_word_synset_map_record_order senses w s :
  (create_word_synset_map lower senses).1 !! w
    = nonempty (map s_synset_id (filter (fun r => lower (s_name r) = w) senses))
  ∧ (create_word_synset_map lower senses).2 !! s
    = nonempty (map (fun r => lower (s_name r))
                    (filter (fun r => s_synset_id r = s) senses)).
Proof.
  unfold create_word_synset_map.
  rewrite fold_add_sense_word_filter, fold_add_sense_synset_filter. simpl.
  rewrite !lookup_empty. split.
  - by destruct (map s_synset_id _).
  - by destruct (map _ (filter (fun r => s_synset_id r = s) senses)).
Qed.

End RecordOrder.

(** ** Stored definitions *)

Lemma fold_insert_definition_last synsets (acc : gmap string synset_info) id :
  fold_left
    (fun definitions child =>
       <[y_id child := SynsetInfo (y_ruthes_name child) (y_definition child)]> definitions)
    synsets acc !! id
  = match last (filter (fun y => y_id y = id) synsets) with
    | Some y => Some (SynsetInfo (y_ruthes_name y) (y_definition y))
    | None => acc !! id
    end.
Proof.
  revert acc. induction synsets as [|child synsets IH]; intros acc; [done|].
  simpl fold_left. rewrite IH.
  destruct (decide (y_id child = id)) as [E|E].
  - rewrite filter_cons_True by done. rewrite last_cons.
    destruct (last (filter _ synsets)); [done|]. subst id. by rewrite lookup_insert_eq.
  - rewrite filter_cons_False by done.
    destruct (last (filter _ synsets)); [done|]. by rewrite lookup_insert_ne.
Qed.

Lemma init_rest lower t st :
  init lower t = Return st →
  defin_N st = extract_synset_definitions (file_synsets_N t)
  ∧ senses_N st = file_senses_N t ∧ senses_V st = file_senses_V t
  ∧ senses_A st = file_senses_A t
  ∧ get_basic_relations (file_relations t) = Return (basic_relations st).
Proof.
  unfold init.
  destruct (create_word_synset_map lower (file_senses_N t)) as [wN sN].
  destruct (create_word_synset_map lower (file_senses_V t)) as [wV sV].
  destruct (create_word_synset_map lower (file_senses_A t)) as [wA sA].
  destruct (get_basic_relations (file_relations t)); [|done].
  by intros [= <-].
Qed.

(** X2. On a built object, [show_synset_definitions] returns for an id the
    names of the last record of the noun synset file with that id (an
    earlier record with the same id is overwritten), and the empty
    dictionary when the noun file has no such record. *)
Theorem show_synset_definitions_last_record lower t st id :
  init lower t = Return st →
  show_synset_definitions st id
  = (fun y => SynsetInfo (y_ruthes_name y) (y_definition y))
      <$> last (filter (fun y => y_id y = id) (file_synsets_N t)).
Proof.
  intros Hinit. destruct (init_rest lower t st Hinit) as (Hd & _).
  rewrite show_synset_definitions_noun_only, Hd.
  unfold extract_synset_definitions. rewrite fold_insert_definition_last.
  destruct (last _); [done|]. by rewrite lookup_empty.
Qed.

(** ** Vocabulary scans *)

Section Scans.

Variable lower : string → string.
Variable tqdm_notebook : list sense → list string.

(** Both scans are instances of one loop: append the key of a record when
    the record is selected and the key is not yet in the list. *)
Lemma scan_spec (key : sense → string) (sel : sense → bool) senses acc :
  NoDup acc →
  NoDup (fold_left
           (fun words child =>
              if negb (list_mem (key child) words) && sel child
              then words ++ [key child] else words)
           senses acc)
  ∧ ∀ x, x ∈ fold_left
               (fun words child =>
                  if negb (list_mem (key child) words) && sel child
                  then words ++ [key child] else words)
               senses acc
         ↔ x ∈ acc ∨ ∃ child, child ∈ senses ∧ sel child = true ∧ key child = x.
Proof.
  revert acc. induction senses as [|child senses IH]; intros acc Hnd; simpl.
  - split; [done|]. intros x. split; [by left|].
    intros [H | (c & Hc & _)]; [done | by apply elem_of_nil in Hc].
  - destruct (list_mem (key child) acc) eqn:Hm; simpl.
    + apply list_mem_elem_of in Hm.
      destruct (IH acc Hnd) as [IH1 IH2]. split; [done|].
      intros x. rewrite IH2. split.
      * intros [H | (c & Hc & H)]; [by left|].
        right. exists c. split; [apply elem_of_cons; by right | done].
      * intros [H | (c & Hc & Hs & Hk)]; [by left|].
        apply elem_of_cons in Hc as [-> | Hc]; [left; by subst | right; eauto].
    + apply list_mem_false in Hm. destruct (sel child) eqn:Hs.
      * assert (NoDup (acc ++ [key child])) as Hnd'.
        { apply NoDup_app. split; [done|]. split; [|apply NoDup_singleton].
          intros y Hy Hy'. apply list_elem_of_singleton in Hy'. by subst. }
        destruct (IH _ Hnd') as [IH1 IH2]. split; [done|].
        intros x. rewrite IH2, elem_of_app, list_elem_of_singleton. split.
        -- intros [[H | ->] | (c & Hc & H)]; [by left | right .. ].
           ++ exists child. split; [apply elem_of_cons; by left | done].
           ++ exists c. split; [apply elem_of_cons; by right | done].
        -- intros [H | (c & Hc & Hsel & Hk)]; [by left; left|].
           apply elem_of_cons in Hc as [-> | Hc]; [left; by right | right; eauto].
      * destruct (IH acc Hnd) as [IH1 IH2]. split; [done|].
        intros x. rewrite IH2. split.
        -- intros [H | (c & Hc & H)]; [by left|].
           right. exists c. split; [apply elem_of_cons; by right | done].
        -- intros [H | (c & Hc & Hsel & Hk)]; [by left|].
           apply elem_of_cons in Hc as [-> | Hc]; [congruence | right; eauto].
Qed.

Lemma senses_of_invalid st pos : valid_pos pos = false → senses_of st pos = None.
Proof.
  unfold valid_pos, senses_of. intros H.
  destruct (String.eqb pos "Noun"); [done|].
  destruct (String.eqb pos "Verb"); [done|].
  by destruct (String.eqb pos "Adj").
Qed.

(** X3. For a tag other than [Noun], [Verb] and [Adj] (the comparison is
    exact, so [noun] is such a tag) both scans print [Invalid POS-tag] and
    return the empty list, whatever the object holds. *)
Theorem scans_reject_unknown_tag st pos output :
  valid_pos pos = false →
  extract_polysesmous_words lower tqdm_notebook st pos output = ([], ["Invalid POS-tag"])
  ∧ extract_monosesmous_words lower tqdm_notebook st pos output = ([], ["Invalid POS-tag"]).
Proof.
  intros H. unfold extract_polysesmous_words, extract_monosesmous_words.
  by rewrite (senses_of_invalid st pos H).
Qed.

(** X4. For a valid tag, [extract_polysesmous_words] writes what the
    progress display of [tqdm_notebook] writes for the records of the part
    of speech and nothing else, and returns a list without repetitions
    whose elements are exactly the keys (lower-cased lemma for the output
    [lemmas], lower-cased name otherwise) of the records whose [meaning] is
    not [1]. *)
Theorem extract_polysesmous_words_spec st pos output senses :
  senses_of st pos = Some senses →
  (extract_polysesmous_words lower tqdm_notebook st pos output).2 = tqdm_notebook senses
  ∧ NoDup (extract_polysesmous_words lower tqdm_notebook st pos output).1
  ∧ ∀ x, x ∈ (extract_polysesmous_words lower tqdm_notebook st pos output).1
         ↔ ∃ child, child ∈ senses ∧ s_meaning child ≠ "1"
                    ∧ sense_key lower output child = x.
Proof.
  intros Hs. unfold extract_polysesmous_words. rewrite Hs. simpl.
  split; [done|].
  destruct (scan_spec (sense_key lower output)
              (fun child => negb (String.eqb (s_meaning child) "1")) senses [])
    as [H1 H2]; [apply NoDup_nil_2|].
  split; [exact H1|]. intros x. rewrite H2. split.
  - intros [H | (c & Hc & Hsel & Hk)]; [by apply elem_of_nil in H|].
    exists c. split; [done|]. split; [|done].
    apply negb_true_iff in Hsel. by apply String.eqb_neq.
  - intros (c & Hc & Hm & Hk). right. exists c. split; [done|]. split; [|done].
    apply negb_true_iff. by apply String.eqb_neq.
Qed.

(** X5. For a valid tag, [extract_monosesmous_words] writes what the
    progress display of [tqdm_notebook] writes for the records of the part
    of speech and nothing else, and returns a list without repetitions
    whose elements are exactly the keys of the records whose [meaning] is
    [1]: a word is listed as soon as it has a first sense, whether or not
    it has more senses. *)
Theorem extract_monosesmous_words_spec st pos output senses :
  senses_of st pos = Some senses →
  (extract_monosesmous_words lower tqdm_notebook st pos output).2 = tqdm_notebook senses
  ∧ NoDup (extract_monosesmous_words lower tqdm_notebook st pos output).1
  ∧ ∀ x, x ∈ (extract_monosesmous_words lower tqdm_notebook st pos output).1
         ↔ ∃ child, child ∈ senses ∧ s_meaning child = "1"
                    ∧ sense_key lower output child = x.
Proof.
  intros Hs. unfold extract_monosesmous_words. rewrite Hs. simpl.
  split; [done|].
  destruct (scan_spec (sense_key lower output)
              (fun child => String.eqb (s_meaning child) "1") senses [])
    as [H1 H2]; [apply NoDup_nil_2|].
  split; [exact H1|]. intros x. rewrite H2. split.
  - intros [H | (c & Hc & Hsel & Hk)]; [by apply elem_of_nil in H|].
    exists c. split; [done|]. split; [|done]. by apply String.eqb_eq.
  - intros (c & Hc & Hm & Hk). right. exists c. split; [done|]. split; [|done].
    by apply String.eqb_eq.
Qed.

(** X6. For a valid tag the two scans together cover the vocabulary: the
    key of every record of the part of speech is in the polysemous list or
    in the monosemous list. *)
Theorem scans_cover_every_key st pos output senses child :
  senses_of st pos = Some senses →
  child ∈ senses →
  sense_key lower output child ∈ (extract_polysesmous_words lower tqdm_notebook st pos output).1
  ∨ sense_key lower output child ∈ (extract_monosesmous_words lower tqdm_notebook st pos output).1.
Proof.
  intros Hs Hc. unfold extract_polysesmous_words, extract_monosesmous_words.
  rewrite Hs. simpl.
  destruct (String.eqb (s_meaning child) "1") eqn:E.
  - right.
    apply (scan_spec (sense_key lower output)
             (fun child => String.eqb (s_meaning child) "1") senses []);
      [apply NoDup_nil_2|]. right. by exists child.
  - left.
    apply (scan_spec (sense_key lower output)
             (fun child => negb (String.eqb (s_meaning child) "1")) senses []);
      [apply NoDup_nil_2|]. right. exists child. by rewrite E.
Qed.

End Scans.

(** ** Relation adjacency, in general *)

(** What a step of the relation loop does when it does not raise: it
    rewrites the entry of the record's parent, starting from the entry's
    present content or from the empty dictionary, and remembers the
    parent. *)
Lemma add_relation_Return d prev child acc' :
  add_relation (d, prev) child = Return acc' →
  acc'.2 = r_parent_id child
  ∧ ∃ rels0, acc'.1 = <[r_parent_id child := add_child rels0 child]> d
             ∧ (if String.eqb prev (r_parent_id child)
                then d !! r_parent_id child = Some rels0 else rels0 = []).
Proof.
  unfold add_relation, add_child.
  destruct (String.eqb prev (r_parent_id child)) eqn:E.
  - apply String.eqb_eq in E. subst prev.
    destruct (d !! r_parent_id child) as [rels|] eqn:Ed; [|done].
    destruct (get rels (r_name child)) as [children|] eqn:Eg; intros [= <-]; simpl;
      (split; [done|]); exists rels; by rewrite Eg.
  - intros [= <-]. simpl. split; [done|]. by exists [].
Qed.

Lemma add_relation_raises d prev child e :
  add_relation (d, prev) child = Raise e →
  prev = r_parent_id child ∧ d !! r_parent_id child = None
  ∧ e = KeyError (r_parent_id child).
Proof.
  unfold add_relation.
  destruct (String.eqb prev (r_parent_id child)) eqn:E; [|done].
  apply String.eqb_eq in E.
  destruct (d !! r_parent_id child) as [rels|]; [|by intros [= <-]].
  by destruct (get rels (r_name child)).
Qed.

Lemma add_relations_app recs1 recs2 acc :
  add_relations (recs1 ++ recs2) acc
  = match add_relations recs1 acc with
    | Return acc' => add_relations recs2 acc'
    | Raise e => Raise e
    end.
Proof.
  revert acc. induction recs1 as [|r recs1 IH]; intros acc; simpl; [done|].
  destruct (add_relation acc r); [apply IH | done].
Qed.

Lemma add_relation_files_app files1 files2 d :
  add_relation_files (files1 ++ files2) d
  = match add_relation_files files1 d with
    | Return d' => add_relation_files files2 d'
    | Raise e => Raise e
    end.
Proof.
  revert d. induction files1 as [|f files1 IH]; intros d; simpl; [done|].
  destruct (add_relations f (d, "")) as [[d' prev']|]; [apply IH | done].
Qed.

(** Invariants of the dictionary under construction carry over the two
    loops. *)
Lemma add_relations_invariant
    (I : gmap string (odict (list string)) → list relation → Prop) :
  (∀ d prev seen r acc',
     I d seen → add_relation (d, prev) r = Return acc' → I acc'.1 (seen ++ [r])) →
  ∀ recs d prev seen acc',
    I d seen → add_relations recs (d, prev) = Return acc' → I acc'.1 (seen ++ recs).
Proof.
  intros Hstep. induction recs as [|r recs IH]; intros d prev seen acc' HI;
    cbn [add_relations].
  - intros [= <-]. by rewrite app_nil_r.
  - destruct (add_relation (d, prev) r) as [[d1 prev1]|] eqn:E; [|done].
    intros H. rewrite (assoc_L (++) seen [r] recs : seen ++ r :: recs = (seen ++ [r]) ++ recs).
    eapply IH; [|exact H]. exact (Hstep _ _ _ _ _ HI E).
Qed.

Lemma add_relation_files_invariant
    (I : gmap string (odict (list string)) → list relation → Prop) :
  (∀ d prev seen r acc',
     I d seen → add_relation (d, prev) r = Return acc' → I acc'.1 (seen ++ [r])) →
  ∀ files d seen d',
    I d seen → add_relation_files files d = Return d' →
    I d' (seen ++ all_relations files).
Proof.
  intros Hstep. unfold all_relations.
  induction files as [|f files IH]; intros d seen d' HI; simpl.
  - intros [= <-]. by rewrite app_nil_r.
  - destruct (add_relations f (d, "")) as [[d1 prev1]|] eqn:E; [|done].
    intros H. rewrite (assoc_L (++)). eapply IH; [|exact H].
    exact (add_relations_invariant I Hstep _ _ _ _ _ HI E).
Qed.

(** The loops raise only on a record with an empty [parent_id]. *)
Lemma add_relations_no_raise recs d prev :
  (prev = "" ∨ is_Some (d !! prev)) →
  (∀ r, r ∈ recs → r_parent_id r ≠ "") →
  ∃ acc', add_relations recs (d, prev) = Return acc'.
Proof.
  revert d prev. induction recs as [|r recs IH]; intros d prev Hprev Hne;
    cbn [add_relations]; [eauto|].
  destruct (add_relation (d, prev) r) as [[d1 prev1]|e] eqn:E.
  - apply add_relation_Return in E as (Hp & rels0 & Hd & _). simpl in Hp, Hd.
    apply IH.
    + right. subst. by rewrite lookup_insert_eq.
    + intros r' Hr'. apply Hne, elem_of_cons. by right.
  - apply add_relation_raises in E as (Hp & Hd & _). exfalso.
    destruct Hprev as [-> | [x Hx]].
    + apply (Hne r); [apply elem_of_cons; by left | done].
    + subst prev. congruence.
Qed.

Lemma add_relation_files_no_raise files d :
  (∀ r, r ∈ all_relations files → r_parent_id r ≠ "") →
  ∃ d', add_relation_files files d = Return d'.
Proof.
  unfold all_relations.
  revert d. induction files as [|f files IH]; intros d Hne; simpl; [eauto|].
  destruct (add_relations_no_raise f d "") as [[d1 prev1] E]; [by left | |].
  { intros r Hr. apply Hne. simpl. apply elem_of_app. by left. }
  rewrite E. apply IH. intros r Hr. apply Hne. simpl. apply elem_of_app. by right.
Qed.

(** X7. When no relation record has an empty [parent_id], the build of
    the object does not raise, whatever the order of the records. *)
Theorem init_succeeds lower t :
  (∀ r, r ∈ all_relations (file_relations t) → r_parent_id r ≠ "") →
  ∃ st, init lower t = Return st.
Proof.
  intros Hne. unfold init, get_basic_relations.
  destruct (create_word_synset_map lower (file_senses_N t)) as [wN sN].
  destruct (create_word_synset_map lower (file_senses_V t)) as [wV sV].
  destruct (create_word_synset_map lower (file_senses_A t)) as [wA sA].
  destruct (add_relation_files_no_raise (file_relations t) ∅ Hne) as [d ->]. eauto.
Qed.

(** X8. When the first relation record of the first relations file has an
    empty [parent_id], the build raises [KeyError('')]: the record looks
    like a continuation of a parent that was never stored. *)
Theorem get_basic_relations_raises_on_empty_parent child root files :
  r_parent_id child = "" →
  get_basic_relations ((child :: root) :: files) = Raise (KeyError "").
Proof.
  intros Hp. unfold get_basic_relations. simpl. unfold add_relation.
  rewrite Hp. simpl. by rewrite lookup_empty.
Qed.

Lemma get_add_child rels r name :
  get (add_child rels r) name
  = if decide (r_name r = name)
    then Some (default [] (get rels name) ++ [r_child_id r])
    else get rels name.
Proof.
  unfold add_child. case_decide as E.
  - subst name. apply get_set_eq.
  - by apply get_set_ne.
Qed.

Lemma add_child_not_nil rels r : add_child rels r ≠ [].
Proof.
  intros H. pose proof (get_add_child rels r (r_name r)) as Hg.
  rewrite H in Hg. rewrite decide_True in Hg by done. done.
Qed.

(** X9. The relation dictionary holds no invented edge and loses no
    parent: every child listed under a parent and a relation name comes
    from a record with that parent, name and child, and every parent of a
    record is a key whose dictionary is not empty. *)
Theorem get_basic_relations_sound files d :
  get_basic_relations files = Return d →
  (∀ parent rels name children child,
     d !! parent = Some rels → get rels name = Some children → child ∈ children →
     has_edge (all_relations files) parent name child)
  ∧ (∀ r, r ∈ all_relations files →
          ∃ rels, d !! r_parent_id r = Some rels ∧ rels ≠ []).
Proof.
  intros Hd.
  pose (I := fun (d : gmap string (odict (list string))) (seen : list relation) =>
    (∀ parent rels name children child,
       d !! parent = Some rels → get rels name = Some children → child ∈ children →
       has_edge seen parent name child)
    ∧ (∀ parent rels, d !! parent = Some rels → rels ≠ [])
    ∧ (∀ r, r ∈ seen → is_Some (d !! r_parent_id r))).
  assert (I d ([] ++ all_relations files)) as (H1 & H2 & H3).
  { eapply (add_relation_files_invariant I); [| |exact Hd].
    - clear. intros d prev seen r acc' (H1 & H2 & H3) Hstep.
      apply add_relation_Return in Hstep as (_ & rels0 & -> & Hrels0).
      assert (∀ name children, get rels0 name = Some children →
                d !! r_parent_id r = Some rels0) as Hold.
      { intros name children Hg.
        destruct (String.eqb prev (r_parent_id r)); [done|]. by subst rels0. }
      split; [|split].
      + intros parent rels name children child Hp Hg Hc.
        destruct (decide (r_parent_id r = parent)) as [<-|Hne].
        * rewrite lookup_insert_eq in Hp. injection Hp as <-.
          rewrite get_add_child in Hg. case_decide as En.
          -- injection Hg as <-. apply elem_of_app in Hc as [Hc | Hc].
             ++ destruct (get rels0 name) as [cs|] eqn:Eg; simpl in Hc;
                  [|by apply elem_of_nil in Hc].
                destruct (H1 _ _ _ _ _ (Hold _ _ Eg) Eg Hc) as (r' & Hr' & Hr'').
                exists r'. split; [apply elem_of_app; by left | done].
             ++ apply list_elem_of_singleton in Hc as ->.
                exists r. split; [apply elem_of_app; right; by apply list_elem_of_singleton | done].
          -- destruct (H1 _ _ _ _ _ (Hold _ _ Hg) Hg Hc) as (r' & Hr' & Hr'').
             exists r'. split; [apply elem_of_app; by left | done].
        * rewrite lookup_insert_ne in Hp by done.
          destruct (H1 _ _ _ _ _ Hp Hg Hc) as (r' & Hr' & Hr'').
          exists r'. split; [apply elem_of_app; by left | done].
      + intros parent rels Hp.
        destruct (decide (r_parent_id r = parent)) as [<-|Hne].
        * rewrite lookup_insert_eq in Hp. injection Hp as <-. apply add_child_not_nil.
        * rewrite lookup_insert_ne in Hp by done. by eapply H2.
      + intros r' Hr'. simpl.
        destruct (decide (r_parent_id r = r_parent_id r')) as [E|Hne].
        * rewrite <- E, lookup_insert_eq. eauto.
        * rewrite lookup_insert_ne by done.
          apply elem_of_app in Hr' as [Hr' | Hr']; [by apply H3|].
          apply list_elem_of_singleton in Hr'. by subst.
    - split; [|split].
      + intros parent rels ? ? ? Hp. by rewrite lookup_empty in Hp.
      + intros parent rels Hp. by rewrite lookup_empty in Hp.
      + intros r Hr. by apply elem_of_nil in Hr. }
  split; [exact H1|].
  intros r Hr. destruct (H3 r Hr) as [rels Hrels]. exists rels. split; [done|].
  by eapply H2.
Qed.

(** Records of other parents leave the entry of a parent alone. *)
Lemma add_relations_frame parent recs d prev acc' :
  add_relations recs (d, prev) = Return acc' →
  (∀ r, r ∈ recs → r_parent_id r ≠ parent) →
  acc'.1 !! parent = d !! parent.
Proof.
  revert d prev. induction recs as [|r recs IH]; intros d prev; cbn [add_relations].
  - by intros [= <-].
  - destruct (add_relation (d, prev) r) as [[d1 prev1]|] eqn:E; [|done].
    intros H Hne. rewrite (IH _ _ H).
    + apply add_relation_Return in E as (_ & rels0 & Hd1 & _).
      simpl in Hd1. subst d1.
      apply lookup_insert_ne, Hne, elem_of_cons. by left.
    + intros r' Hr'. apply Hne, elem_of_cons. by right.
Qed.

Lemma add_relation_files_frame parent files d d' :
  add_relation_files files d = Return d' →
  (∀ r, r ∈ all_relations files → r_parent_id r ≠ parent) →
  d' !! parent = d !! parent.
Proof.
  unfold all_relations.
  revert d. induction files as [|f files IH]; intros d; cbn [add_relation_files].
  - by intros [= <-].
  - destruct (add_relations f (d, "")) as [[d1 prev1]|] eqn:E; [|done].
    intros H Hne. rewrite (IH _ H).
    + apply (add_relations_frame parent) in E; [done|].
      intros r Hr. apply Hne. simpl. apply elem_of_app. by left.
    + intros r Hr. apply Hne. simpl. apply elem_of_app. by right.
Qed.

(** A run of records of the parent that was seen last extends the entry
    of that parent record by record. *)
Lemma add_relations_run parent run d rels :
  (∀ r, r ∈ run → r_parent_id r = parent) →
  d !! parent = Some rels →
  ∃ acc', add_relations run (d, parent) = Return acc'
          ∧ acc'.1 !! parent = Some (fold_left add_child run rels).
Proof.
  revert d rels. induction run as [|r run IH]; intros d rels Hrun Hd;
    cbn [add_relations fold_left].
  - eauto.
  - assert (r_parent_id r = parent) as Hp by (apply Hrun, elem_of_cons; by left).
    destruct (add_relation (d, parent) r) as [[d1 prev1]|e] eqn:E.
    + apply add_relation_Return in E as (Hprev & rels0 & Hd1 & Hrels0).
      simpl in Hprev, Hd1. rewrite Hp in *.
      rewrite String.eqb_refl in Hrels0. rewrite Hd in Hrels0. injection Hrels0 as <-.
      subst prev1. apply IH.
      * intros r' Hr'. apply Hrun, elem_of_cons. by right.
      * subst d1. by rewrite lookup_insert_eq.
    + apply add_relation_raises in E as (_ & Hnone & _). congruence.
Qed.

Lemma get_fold_add_child run rels name :
  get (fold_left add_child run rels) name
  = match children_of name run with
    | [] => get rels name
    | l => Some (default [] (get rels name) ++ l)
    end.
Proof.
  unfold children_of.
  revert rels. induction run as [|r run IH]; intros rels; [done|].
  cbn [fold_left]. rewrite IH, get_add_child.
  destruct (decide (r_name r = name)) as [E|E].
  - rewrite filter_cons_True by done. simpl.
    destruct (map r_child_id (filter _ run)) as [|x l]; [done|].
    simpl. by rewrite <- app_assoc.
  - by rewrite filter_cons_False by done.
Qed.

(** X10. When the records of a parent stand together in one file (as one
    run, with no record of that parent anywhere else in the input), the
    relation dictionary of the parent lists, under every relation name, the
    children of the run's records with that name in record order, and has
    no other relation name. *)
Theorem get_basic_relations_contiguous_run
    files d before pre run post after parent :
  get_basic_relations files = Return d →
  files = before ++ (pre ++ run ++ post) :: after →
  run ≠ [] →
  (∀ r, r ∈ run → r_parent_id r = parent) →
  (∀ r, r ∈ all_relations before ++ pre ++ post ++ all_relations after →
        r_parent_id r ≠ parent) →
  ∃ rels, d !! parent = Some rels
          ∧ ∀ name, get rels name = nonempty (children_of name run).
Proof.
  intros Hd -> Hne Hrun Hother. unfold get_basic_relations in Hd.
  rewrite add_relation_files_app in Hd.
  destruct (add_relation_files before ∅) as [d1|] eqn:E1; [|done].
  cbn [add_relation_files] in Hd.
  destruct (add_relations (pre ++ run ++ post) (d1, "")) as [[d2 p2]|] eqn:E2; [|done].
  assert (d1 !! parent = None) as Hd1.
  { rewrite (add_relation_files_frame parent _ _ _ E1); [apply lookup_empty|].
    intros r Hr. apply Hother. apply elem_of_app. by left. }
  assert (d !! parent = d2 !! parent) as ->.
  { apply (add_relation_files_frame parent _ _ _ Hd).
    intros r Hr. apply Hother. rewrite !elem_of_app. auto. }
  rewrite add_relations_app in E2.
  destruct (add_relations pre (d1, "")) as [[d3 p3]|] eqn:E3; [|done].
  assert (d3 !! parent = None) as Hd3.
  { rewrite <- Hd1. apply (add_relations_frame parent _ _ _ _ E3).
    intros r Hr. apply Hother. rewrite !elem_of_app. auto. }
  rewrite add_relations_app in E2.
  destruct run as [|r run]; [done|]. cbn [add_relations] in E2.
  assert (r_parent_id r = parent) as Hp by (apply Hrun, elem_of_cons; by left).
  destruct (add_relation (d3, p3) r) as [[d4 p4]|] eqn:E4; [|done].
  apply add_relation_Return in E4 as (Hp4 & rels0 & Hd4 & Hrels0).
  simpl in Hp4, Hd4. rewrite Hp in *. subst p4.
  assert (rels0 = []) as ->.
  { destruct (String.eqb p3 parent); [congruence | done]. }
  destruct (add_relations_run parent run d4 (add_child [] r)) as ([d5 p5] & E5 & Hd5).
  { intros r' Hr'. apply Hrun, elem_of_cons. by right. }
  { subst d4. by rewrite lookup_insert_eq. }
  rewrite E5 in E2. simpl in Hd5.
  exists (fold_left add_child (r :: run) []). split.
  - transitivity (d5 !! parent); [|exact Hd5].
    apply (add_relations_frame parent _ _ _ _ E2).
    intros r' Hr'. apply Hother. rewrite !elem_of_app. auto.
  - intros name. rewrite get_fold_add_child. simpl.
    by destruct (children_of name (r :: run)).
Qed.

(** ** Synonyms, in general *)

Lemma list_remove_sublist x l : list_remove x l `sublist_of` l.
Proof.
  induction l as [|y l IH]; simpl; [done|].
  destruct (String.eqb y x); [by apply sublist_cons | by apply sublist_skip].
Qed.

Lemma only_words_removed_refl st : only_words_removed st st.
Proof.
  split; [by repeat split|]. intros p syn.
  destruct (synset_word st p !! syn); by constructor.
Qed.

Lemma only_words_removed_trans st1 st2 st3 :
  only_words_removed st1 st2 → only_words_removed st2 st3 → only_words_removed st1 st3.
Proof.
  intros [H1 S1] [H2 S2]. split.
  - unfold same_but_synset_words in *.
    destruct H1 as (?&?&?&?&?&?&?&?&?&?&?&?&?), H2 as (?&?&?&?&?&?&?&?&?&?&?&?&?).
    repeat split; congruence.
  - intros p syn. specialize (S1 p syn). specialize (S2 p syn).
    destruct S2 as [l3 l2 H32|]; inversion S1 as [l2' l1 H21|]; subst; constructor.
    by etrans.
Qed.

Lemma show_synset_words_Stored st syn p s :
  show_synset_words st syn = Stored p s → s = syn ∧ is_Some (synset_word st p !! syn).
Proof.
  unfold show_synset_words.
  destruct (synset_word_N st !! syn) eqn:EN; [intros [= <- <-]; simpl; by rewrite EN|].
  destruct (synset_word_V st !! syn) eqn:EV; [intros [= <- <-]; simpl; by rewrite EV|].
  destruct (synset_word_A st !! syn) eqn:EA; [intros [= <- <-]; simpl; by rewrite EA|].
  done.
Qed.

Lemma synset_word_set st p m q :
  synset_word (set_synset_word st p m) q = if decide (p = q) then m else synset_word st q.
Proof. by destruct p, q. Qed.

Lemma visit_only_words_removed st word syn :
  only_words_removed st (visit st word syn).2.
Proof.
  unfold visit.
  destruct (list_mem word (content st (show_synset_words st syn)));
    [|apply only_words_removed_refl].
  destruct (show_synset_words st syn) as [p s|l] eqn:E;
    [|apply only_words_removed_refl].
  apply show_synset_words_Stored in E as [-> [l Hl]].
  simpl. rewrite Hl. simpl. split; [by destruct p; repeat split|].
  intros q syn'. rewrite synset_word_set. case_decide as Epq.
  - subst q. destruct (decide (syn = syn')) as [<-|Hne].
    + rewrite lookup_insert_eq, Hl. constructor. apply list_remove_sublist.
    + rewrite lookup_insert_ne by done.
      destruct (synset_word st p !! syn'); by constructor.
  - destruct (synset_word st q !! syn'); by constructor.
Qed.

Lemma show_synonyms_loop_cons word syn synsets st output_info :
  show_synonyms_loop word (syn :: synsets) st output_info
  = match show_synset_definitions (visit st word syn).2 syn with
    | None => (Raise (KeyError "ruthes_name"), (visit st word syn).2)
    | Some d =>
        show_synonyms_loop word synsets (visit st word syn).2
          (output_info ++
             [{| synset_id := syn; synonyms := (visit st word syn).1;
                 entry_ruthes_name := ruthes_name d |}])
    end.
Proof.
  cbn [show_synonyms_loop]. unfold visit.
  by destruct (list_mem word (content st (show_synset_words st syn)));
    [destruct (remove_in_place st (show_synset_words st syn) word)|].
Qed.

Lemma show_synonyms_loop_only_words_removed word synsets st output_info :
  only_words_removed st (show_synonyms_loop word synsets st output_info).2.
Proof.
  revert st output_info. induction synsets as [|syn synsets IH]; intros st output_info.
  - apply only_words_removed_refl.
  - rewrite show_synonyms_loop_cons.
    pose proof (visit_only_words_removed st word syn) as Hv.
    destruct (show_synset_definitions (visit st word syn).2 syn); [|done].
    eapply only_words_removed_trans; [exact Hv | apply IH].
Qed.

Lemma show_synonyms_word_lookup st word :
  show_synonyms st word
  = match word_lookup st word with
    | Some synsets =>
        match show_synonyms_loop word synsets st [] with
        | (Return output_info, st') => (Return (SynonymEntries output_info), st')
        | (Raise e, st') => (Raise e, st')
        end
    | None => (Return (NoSuchWord "No such word in RuWordNet"), st)
    end.
Proof.
  unfold show_synonyms, word_lookup.
  destruct (word_synset_N st !! word); [done|].
  destruct (word_synset_V st !! word); [done|].
  by destruct (word_synset_A st !! word).
Qed.

(** X11. Whatever [show_synonyms] returns or raises, the object it leaves
    behind differs from the one it started on at most in stored word
    lists that have lost elements: the word-to-synsets dictionaries, the
    definitions, the relations and the sense and synset records are the
    same, no key of a synset-to-words dictionary is added or dropped, and
    every stored word list is a sublist of what it was. *)
Theorem show_synonyms_only_removes_words st word :
  only_words_removed st (show_synonyms st word).2.
Proof.
  rewrite show_synonyms_word_lookup.
  destruct (word_lookup st word) as [synsets|]; [|apply only_words_removed_refl].
  pose proof (show_synonyms_loop_only_words_removed word synsets st []) as H.
  by destruct (show_synonyms_loop word synsets st []) as [[out|e] st'].
Qed.

Lemma only_words_removed_defin_N st st' :
  only_words_removed st st' → defin_N st' = defin_N st.
Proof. by intros [(?&?&?&?&?&?&?&?&?&?&?) _]. Qed.

(** The loop of [show_synonyms] stops at the first synset without an
    entry in [defin_N] and otherwise yields one entry per synset. *)
Lemma show_synonyms_loop_spec word synsets st output_info :
  (Forall (fun syn => is_Some (defin_N st !! syn)) synsets →
   ∃ entries st',
     show_synonyms_loop word synsets st output_info
       = (Return (output_info ++ entries), st')
     ∧ map synset_id entries = synsets
     ∧ Forall (fun e => ruthes_name <$> defin_N st !! synset_id e
                        = Some (entry_ruthes_name e)) entries)
  ∧ (¬ Forall (fun syn => is_Some (defin_N st !! syn)) synsets →
     ∃ st', show_synonyms_loop word synsets st output_info
            = (Raise (KeyError "ruthes_name"), st')).
Proof.
  revert st output_info.
  induction synsets as [|syn synsets IH]; intros st output_info.
  - split.
    + intros _. exists [], st. by rewrite app_nil_r.
    + intros H. by destruct H.
  - rewrite show_synonyms_loop_cons.
    pose proof (only_words_removed_defin_N _ _ (visit_only_words_removed st word syn))
      as Hdef.
    rewrite show_synset_definitions_noun_only, Hdef.
    destruct (defin_N st !! syn) as [d|] eqn:Ed.
    + destruct (IH (visit st word syn).2
                  (output_info ++
                     [{| synset_id := syn; synonyms := (visit st word syn).1;
                         entry_ruthes_name := ruthes_name d |}])) as [IH1 IH2].
      rewrite Hdef in IH1, IH2. split.
      * intros Hall. apply Forall_cons in Hall as [_ Hall].
        destruct (IH1 Hall) as (entries & st' & -> & Hids & Hnames).
        eexists (_ :: entries), st'. rewrite <- app_assoc. split; [done|].
        simpl. split; [by rewrite Hids|].
        apply Forall_cons. split; [simpl; by rewrite Ed | done].
      * intros Hnot. apply IH2. intros Hall. apply Hnot, Forall_cons.
        split; [by rewrite Ed | done].
    + split.
      * intros Hall. apply Forall_cons in Hall as [[x Hx] _]. congruence.
      * intros _. eauto.
Qed.

(** X12. When every synset of a known word has an entry in the noun
    definition map, [show_synonyms] returns one dictionary per synset of
    the word, in the order of the stored synset list and with repetitions,
    each with the [ruthes_name] that [defin_N] stores for its synset. *)
Theorem show_synonyms_returns st word synsets :
  word_lookup st word = Some synsets →
  Forall (fun syn => is_Some (defin_N st !! syn)) synsets →
  ∃ entries st',
    show_synonyms st word = (Return (SynonymEntries entries), st')
    ∧ map synset_id entries = synsets
    ∧ Forall (fun e => ruthes_name <$> defin_N st !! synset_id e
                       = Some (entry_ruthes_name e)) entries.
Proof.
  intros Hw Hall. rewrite show_synonyms_word_lookup, Hw.
  destruct (proj1 (show_synonyms_loop_spec word synsets st []) Hall)
    as (entries & st' & -> & H). by exists entries, st'.
Qed.

(** X13. When some synset of a known word has no entry in the noun
    definition map, [show_synonyms] raises [KeyError('ruthes_name')],
    also when the synsets before it have entries. *)
Theorem show_synonyms_raises_on_missing_definition st word synsets syn :
  word_lookup st word = Some synsets →
  syn ∈ synsets →
  defin_N st !! syn = None →
  ∃ st', show_synonyms st word = (Raise (KeyError "ruthes_name"), st').
Proof.
  intros Hw Hin Hnone. rewrite show_synonyms_word_lookup, Hw.
  destruct (proj2 (show_synonyms_loop_spec word synsets st [])) as [st' ->]; [|eauto].
  intros Hall. rewrite Forall_forall in Hall.
  destruct (Hall syn Hin) as [x Hx]. congruence.
Qed.

(** ** The query word in the returned synonyms *)

Lemma occurrences_cons x y l :
  occurrences x (y :: l) = if decide (y = x) then S (occurrences x l) else occurrences x l.
Proof.
  unfold occurrences. case_decide.
  - by rewrite filter_cons_True.
  - by rewrite filter_cons_False.
Qed.

Lemma occurrences_zero x l : occurrences x l = 0 → x ∉ l.
Proof.
  induction l as [|y l IH]; [intros _; apply not_elem_of_nil|].
  rewrite occurrences_cons. case_decide; [done|].
  intros H0. apply not_elem_of_cons. split; [done | by apply IH].
Qed.

Lemma occurrences_not_elem_of x l : x ∉ l → occurrences x l = 0.
Proof.
  induction l as [|y l IH]; [done|].
  intros H. apply not_elem_of_cons in H as [Hne H].
  rewrite occurrences_cons. rewrite decide_False by done. by apply IH.
Qed.

Lemma occurrences_list_remove x l :
  x ∈ l → S (occurrences x (list_remove x l)) = occurrences x l.
Proof.
  induction l as [|y l IH]; [intros H; by apply elem_of_nil in H|].
  intros H. simpl. rewrite occurrences_cons.
  destruct (String.eqb y x) eqn:E.
  - apply String.eqb_eq in E. by rewrite decide_True.
  - apply String.eqb_neq in E. rewrite decide_False by done.
    rewrite occurrences_cons, decide_False by done. apply IH.
    apply elem_of_cons in H as [H | H]; [by subst | done].
Qed.

Section Occurrences.

Variable lower : string → string.

(** A synset is stored as often under a word as the word is stored under
    the synset: once per record that links the two. *)
Lemma create_word_synset_map_occurrences senses w s :
  occurrences s (default [] ((create_word_synset_map lower senses).1 !! w))
  = occurrences w (default [] ((create_word_synset_map lower senses).2 !! s)).
Proof.
  unfold create_word_synset_map.
  rewrite fold_add_sense_word_filter, fold_add_sense_synset_filter. simpl.
  rewrite !lookup_empty. simpl.
  transitivity (occurrences s
    (map s_synset_id (filter (fun r => lower (s_name r) = w) senses)));
    [by destruct (map s_synset_id _)|].
  transitivity (occurrences w
    (map (fun r => lower (s_name r)) (filter (fun r => s_synset_id r = s) senses)));
    [|by destruct (map _ (filter (fun r => s_synset_id r = s) senses))].
  induction senses as [|r senses IH]; [done|].
  destruct (decide (lower (s_name r) = w)) as [Ew|Ew];
    [rewrite (filter_cons_True (fun r => lower (s_name r) = w)) by done
    |rewrite (filter_cons_False (fun r => lower (s_name r) = w)) by done];
    (destruct (decide (s_synset_id r = s)) as [Es|Es];
     [rewrite (filter_cons_True (fun r => s_synset_id r = s)) by done
     |rewrite (filter_cons_False (fun r => s_synset_id r = s)) by done]);
    cbn [map]; rewrite ?occurrences_cons, ?decide_True, ?decide_False by done;
    by rewrite IH.
Qed.

End Occurrences.

Lemma show_synset_words_Fresh st syn l :
  show_synset_words st syn = Fresh l → l = ["No such synset in the thesaurus"].
Proof.
  unfold show_synset_words.
  destruct (synset_word_N st !! syn); [done|].
  destruct (synset_word_V st !! syn); [done|].
  destruct (synset_word_A st !! syn); [done|]. by intros [= <-].
Qed.

Lemma show_synset_words_earlier st syn p s q :
  show_synset_words st syn = Stored p s → earlier q p = true →
  synset_word st q !! syn = None.
Proof.
  unfold show_synset_words.
  destruct (synset_word_N st !! syn) eqn:EN; [intros [= <- <-]; by destruct q|].
  destruct (synset_word_V st !! syn) eqn:EV; [intros [= <- <-]; by destruct q|].
  destruct (synset_word_A st !! syn) eqn:EA; [intros [= <- <-]; by destruct q|].
  done.
Qed.

Lemma only_words_removed_show_synset_words st st' syn :
  only_words_removed st st' → show_synset_words st' syn = show_synset_words st syn.
Proof.
  intros [_ H]. unfold show_synset_words.
  pose proof (H Noun syn) as HN. pose proof (H Verb syn) as HV.
  pose proof (H Adj syn) as HA. simpl in HN, HV, HA.
  destruct HN; [done|]. destruct HV; [done|]. by destruct HA.
Qed.

Lemma word_lookup_first st word synsets :
  word_lookup st word = Some synsets →
  ∃ p, word_synset st p !! word = Some synsets
       ∧ ∀ q, earlier q p = true → word_synset st q !! word = None.
Proof.
  unfold word_lookup.
  destruct (word_synset_N st !! word) eqn:EN.
  { intros [= <-]. exists Noun. split; [done|]. by intros []. }
  destruct (word_synset_V st !! word) eqn:EV.
  { intros [= <-]. exists Verb. split; [done|]. by intros []. }
  intros EA. exists Adj. split; [done|]. by intros [].
Qed.

(** What a visit leaves of the stored lists. *)
Lemma visit_content st word syn p' syn' :
  content (visit st word syn).2 (Stored p' syn')
  = if decide (show_synset_words st syn = Stored p' syn')
    then (if list_mem word (content st (Stored p' syn'))
          then list_remove word (content st (Stored p' syn'))
          else content st (Stored p' syn'))
    else content st (Stored p' syn').
Proof.
  unfold visit.
  destruct (show_synset_words st syn) as [p s|l] eqn:E.
  - destruct (decide (Stored p s = Stored p' syn')) as [Es|Es].
    + injection Es as -> ->.
      destruct (list_mem word (content st (Stored p' syn'))) eqn:Em; [|done].
      unfold remove_in_place. cbn [snd content]. rewrite synset_word_set.
      rewrite decide_True by done. by rewrite lookup_insert_eq.
    + destruct (list_mem word (content st (Stored p s))) eqn:Em; [|done].
      unfold remove_in_place. cbn [snd content]. rewrite synset_word_set.
      case_decide as Ep; [|done].
      subst p'. rewrite lookup_insert_ne; [done|]. congruence.
  - rewrite decide_False by done. by destruct (list_mem word (content st (Fresh l))).
Qed.

(** The list object a visit records is the stored list of the synset, or
    a list of its own without the word. *)
Lemma visit_object st word syn :
  (∃ p, (visit st word syn).1 = Stored p syn ∧ show_synset_words st syn = Stored p syn)
  ∨ (∃ l, (visit st word syn).1 = Fresh l ∧ word ∉ l).
Proof.
  unfold visit.
  destruct (show_synset_words st syn) as [p s|l] eqn:E.
  - left. pose proof (show_synset_words_Stored _ _ _ _ E) as [-> _].
    exists p. by destruct (list_mem word (content st (Stored p syn))).
  - right. apply show_synset_words_Fresh in E as ->. cbn [content list_mem].
    destruct (String.eqb "No such synset in the thesaurus" word) eqn:Ew.
    + cbn [remove_in_place fst list_remove]. rewrite Ew.
      exists []. split; [done | apply not_elem_of_nil].
    + eexists. split; [done|]. apply String.eqb_neq in Ew.
      intros H. apply list_elem_of_singleton in H. by subst.
Qed.

Lemma partition_order p q : p = q ∨ earlier q p = true ∨ earlier p q = true.
Proof. destruct p, q; simpl; auto. Qed.

(** If the stored list of every synset still to visit holds the word at
    most as often as the synset will be visited, no entry shows the word
    when the loop is over. *)
Lemma show_synonyms_loop_no_query_word (A : string → Prop) word synsets :
  ∀ st output_info entries st',
    (∀ s, s ∈ synsets → A s) →
    (∀ syn p, A syn → show_synset_words st syn = Stored p syn →
       occurrences word (content st (Stored p syn)) ≤ occurrences syn synsets) →
    (∀ e, e ∈ output_info →
       A (synset_id e)
       ∧ ((∃ p, synonyms e = Stored p (synset_id e)
                ∧ show_synset_words st (synset_id e) = Stored p (synset_id e))
          ∨ (∃ l, synonyms e = Fresh l ∧ word ∉ l))) →
    show_synonyms_loop word synsets st output_info = (Return entries, st') →
    ∀ e, e ∈ entries → word ∉ content st' (synonyms e).
Proof.
  induction synsets as [|syn synsets IH];
    intros st output_info entries st' HA Hbound Hout Hloop.
  - injection Hloop as <- <-. intros e He.
    destruct (Hout e He) as [HAe [(p & -> & Hs) | (l & -> & Hl)]]; [|done].
    apply occurrences_zero. specialize (Hbound _ _ HAe Hs).
    change (occurrences (synset_id e) []) with 0 in Hbound. lia.
  - rewrite show_synonyms_loop_cons in Hloop.
    pose proof (visit_only_words_removed st word syn) as Hv.
    destruct (show_synset_definitions (visit st word syn).2 syn) as [d|]; [|done].
    eapply IH; [| | |exact Hloop].
    + intros s Hs. apply HA, elem_of_cons. by right.
    + intros syn' p' HA' Hs'.
      rewrite (only_words_removed_show_synset_words _ _ _ Hv) in Hs'.
      specialize (Hbound _ _ HA' Hs'). rewrite occurrences_cons in Hbound.
      rewrite visit_content.
      destruct (decide (syn = syn')) as [<-|Hne].
      * rewrite (decide_True (P := show_synset_words st syn = Stored p' syn)) by done.
        destruct (list_mem word (content st (Stored p' syn))) eqn:Em.
        -- apply list_mem_elem_of, occurrences_list_remove in Em. lia.
        -- apply list_mem_false, occurrences_not_elem_of in Em. lia.
      * rewrite (decide_False (P := show_synset_words st syn = Stored p' syn')); [done|].
        intros H. apply show_synset_words_Stored in H as [H _]. congruence.
    + intros e He. apply elem_of_app in He as [He | He].
      * destruct (Hout e He) as [HAe [(p & Hp & Hs) | Hfresh]]; [|by split; [|right]].
        split; [done|]. left. exists p. split; [done|].
        by rewrite (only_words_removed_show_synset_words _ _ _ Hv).
      * apply list_elem_of_singleton in He as ->. simpl.
        split; [apply HA, elem_of_cons; by left|].
        destruct (visit_object st word syn) as [(p & Hp & Hs) | Hfresh]; [|by right].
        left. exists p. split; [done|].
        by rewrite (only_words_removed_show_synset_words _ _ _ Hv).
Qed.

(** X14. On a freshly built object, no dictionary returned by
    [show_synonyms] lists the query word among the synonyms: a synset that
    stores the word several times is visited as many times, and every
    visit removes one occurrence from the list all the returned
    dictionaries share. *)
Theorem show_synonyms_never_lists_query_word lower t st word entries st' :
  init lower t = Return st →
  show_synonyms st word = (Return (SynonymEntries entries), st') →
  ∀ e, e ∈ entries → word ∉ content st' (synonyms e).
Proof.
  intros Hinit. rewrite show_synonyms_word_lookup.
  destruct (word_lookup st word) as [synsets|] eqn:Hw; [|done].
  destruct (show_synonyms_loop word synsets st []) as [[out|err] st''] eqn:Hloop; [|done].
  intros [= <- <-].
  eapply (show_synonyms_loop_no_query_word (fun s => s ∈ synsets));
    [done | | |exact Hloop].
  - intros syn q Hin Hs.
    destruct (word_lookup_first _ _ _ Hw) as (p & Hp & Hearlier).
    assert (∀ p', occurrences word (default [] (synset_word st p' !! syn))
                  = occurrences syn (default [] (word_synset st p' !! word))) as Hocc.
    { intros p'. destruct (init_maps lower t st p' Hinit) as [-> ->].
      symmetry. apply create_word_synset_map_occurrences. }
    cbn [content]. rewrite Hocc.
    destruct (partition_order p q) as [<- | [Hqp | Hpq]].
    + by rewrite Hp.
    + rewrite (Hearlier q Hqp). change (occurrences syn (default [] None)) with 0. lia.
    + exfalso. pose proof (show_synset_words_earlier _ _ _ _ _ Hs Hpq) as Hnone.
      specialize (Hocc p). rewrite Hnone, Hp in Hocc. simpl in Hocc.
      symmetry in Hocc. by apply occurrences_zero in Hocc.
  - intros e He. by apply elem_of_nil in He.
Qed.

(** ** Words behind relations, in general *)

Lemma get_None_keys {V} (d : odict V) k : get d k = None ↔ k ∉ d.*1.
Proof.
  induction d as [|[k' v] d IH]; simpl.
  - split; [intros _; apply not_elem_of_nil | done].
  - destruct (String.eqb k' k) eqn:E.
    + apply String.eqb_eq in E as ->. split; [done|].
      intros H. exfalso. apply H, elem_of_cons. by left.
    + apply String.eqb_neq in E. rewrite IH, not_elem_of_cons.
      split; [by split | by intros [_ H]].
Qed.

Lemma set_keys {V} (d : odict V) k v :
  (set d k v).*1 = if mem d k then d.*1 else d.*1 ++ [k].
Proof.
  unfold mem. induction d as [|[k' v'] d IH]; [done|].
  cbn [set get]. destruct (String.eqb k' k) eqn:E; [done|].
  rewrite !fmap_cons, IH. by destruct (get d k).
Qed.

Lemma set_well_formed rels k v :
  well_formed rels → v ≠ [] → well_formed (set rels k v).
Proof.
  intros [Hnd Hne] Hv. split.
  - rewrite set_keys. unfold mem. destruct (get rels k) eqn:E; [done|].
    apply NoDup_app. split; [done|]. split; [|apply NoDup_singleton].
    intros x Hx Hx'. apply list_elem_of_singleton in Hx' as ->.
    by apply get_None_keys in E.
  - clear Hnd. induction rels as [|[k' v'] rels IH]; simpl.
    + by apply Forall_singleton.
    + apply Forall_cons in Hne as [H1 H2].
      destruct (String.eqb k' k); apply Forall_cons; split; try done. by apply IH.
Qed.

Lemma add_child_well_formed rels r : well_formed rels → well_formed (add_child rels r).
Proof.
  intros H. apply set_well_formed; [done|].
  by destruct (default [] (get rels (r_name r))).
Qed.

Lemma get_basic_relations_well_formed files d parent rels :
  get_basic_relations files = Return d → d !! parent = Some rels → well_formed rels.
Proof.
  intros Hd.
  pose (I := fun (d : gmap string (odict (list string))) (seen : list relation) =>
    ∀ parent rels, d !! parent = Some rels → well_formed rels).
  assert (I d ([] ++ all_relations files)) as HI; [|apply HI].
  eapply (add_relation_files_invariant I); [| |exact Hd].
  - clear. intros d prev seen r acc' HI Hstep parent rels.
    apply add_relation_Return in Hstep as (_ & rels0 & -> & Hrels0).
    destruct (decide (r_parent_id r = parent)) as [<-|Hne].
    + rewrite lookup_insert_eq. intros [= <-]. apply add_child_well_formed.
      destruct (String.eqb prev (r_parent_id r)); [by eapply HI|].
      subst rels0. split; [apply NoDup_nil_2 | apply Forall_nil_2].
    + rewrite lookup_insert_ne by done. apply HI.
  - intros parent' rels' H. by rewrite lookup_empty in H.
Qed.

(** The words collected for one relation name. *)
Lemma fold_add_synset_words_flat st relation targets d relation' :
  get (fold_left (add_synset_words st false relation) targets d) relation'
  = if decide (relation = relation')
    then match targets with
         | [] => get d relation'
         | _ => Some (default [] (get d relation') ++ words_of_targets st targets)
         end
    else get d relation'.
Proof.
  unfold words_of_targets.
  revert d. induction targets as [|syn targets IH]; intros d.
  - simpl. by case_decide.
  - cbn [fold_left]. rewrite IH. case_decide as E; [subst relation'|].
    + cbn [add_synset_words]. rewrite get_set_eq, mem_set_default. simpl.
      destruct targets as [|syn' targets]; [by rewrite app_nil_r|].
      by rewrite <- app_assoc.
    + cbn [add_synset_words]. rewrite get_set_ne by done.
      by rewrite mem_set_default_ne.
Qed.

Lemma fold_add_relation_words_flat st items d relation :
  well_formed items →
  get (fold_left (add_relation_words st false) items d) relation
  = match get items relation with
    | Some targets => Some (default [] (get d relation) ++ words_of_targets st targets)
    | None => get d relation
    end.
Proof.
  revert d. induction items as [|[k targets] items IH]; intros d [Hnd Hne]; [done|].
  apply NoDup_cons in Hnd as [Hk Hnd]. apply Forall_cons in Hne as [Ht Hne].
  simpl in Hk, Ht. cbn [fold_left]. rewrite IH by done.
  unfold add_relation_words. cbn [fst snd]. rewrite fold_add_synset_words_flat.
  cbn [get]. destruct (String.eqb k relation) eqn:E.
  - apply String.eqb_eq in E as ->. rewrite decide_True by done.
    apply get_None_keys in Hk. rewrite Hk. by destruct targets.
  - apply String.eqb_neq in E. by rewrite decide_False.
Qed.

(** X15. On a built object, the list that
    [show_synset_relations_with_words] returns for a relation name, without
    [print_synsets] and without filter, is the concatenation of the word
    lists of the relation's target synsets, in the order of the targets;
    a name that is no relation of the synset is no key of the result. *)
Theorem relations_with_words_concatenates lower chars t st synset_number relation :
  init lower t = Return st →
  get (show_synset_relations_with_words chars st synset_number false (RelStr "all"))
      relation
  = words_of_targets st
      <$> get (show_basic_synset_relations st synset_number) relation.
Proof.
  intros Hinit. destruct (init_rest lower t st Hinit) as (_ & _ & _ & _ & Hrel).
  unfold show_synset_relations_with_words, show_basic_synset_relations.
  destruct (basic_relations st !! synset_number) as [rels|] eqn:E; [|done].
  pose proof (get_basic_relations_well_formed _ _ _ _ Hrel E) as Hwf.
  destruct rels as [|item rels]; [done|].
  cbn [String.eqb Ascii.eqb Bool.eqb]. rewrite fold_add_relation_words_flat by done.
  by destruct (get (item :: rels) relation).
Qed.

Lemma restrict_to_fold_not_in {V} (d : odict V) relations final relation :
  relation ∉ relations →
  get (fold_left
         (fun final_dict relation =>
            match get d relation with
            | Some v => set final_dict relation v
            | None => final_dict
            end)
         relations final) relation = get final relation.
Proof.
  revert final. induction relations as [|a relations IH]; intros final Hnot; [done|].
  apply not_elem_of_cons in Hnot as [Hne Hnot]. cbn [fold_left]. rewrite IH by done.
  destruct (get d a); [|done]. by rewrite get_set_ne.
Qed.

(** X16. A list of relation names as filter restricts the unfiltered
    result: a requested name has the value it has without filter (and is
    left out when the synset has no such relation), a name that was not
    requested is no key of the result. *)
Theorem relations_with_words_filter chars st synset_number print_synsets l relation :
  get (show_synset_relations_with_words chars st synset_number print_synsets
         (RelList l)) relation
  = if bool_decide (relation ∈ l)
    then get (show_synset_relations_with_words chars st synset_number print_synsets
                (RelStr "all")) relation
    else None.
Proof.
  unfold show_synset_relations_with_words.
  destruct (show_basic_synset_relations st synset_number) as [|item rels].
  - by case_bool_decide.
  - cbn [String.eqb Ascii.eqb Bool.eqb]. case_bool_decide as Hin.
    + by apply restrict_to_get.
    + unfold restrict_to. by rewrite restrict_to_fold_not_in.
Qed.

(** ** Closest relatives *)

Lemma extract_word_synset_number_word_lookup st word :
  extract_word_synset_number st word false
  = Synsets (default ["No such word in RuWordNet"] (word_lookup st word)).
Proof.
  unfold extract_word_synset_number, word_lookup.
  destruct (word_synset_N st !! word); [done|].
  destruct (word_synset_V st !! word); [done|].
  by destruct (word_synset_A st !! word).
Qed.

Lemma fold_set_get {V} (f : string → V) l (d : odict V) k :
  get (fold_left (fun relatives syn => set relatives syn (f syn)) l d) k
  = if bool_decide (k ∈ l) then Some (f k) else get d k.
Proof.
  revert d. induction l as [|a l IH]; intros d.
  - cbn [fold_left]. rewrite bool_decide_eq_false_2; [done | apply not_elem_of_nil].
  - cbn [fold_left]. rewrite IH. case_bool_decide as Hl.
    + rewrite bool_decide_eq_true_2; [done|]. apply elem_of_cons. by right.
    + destruct (decide (a = k)) as [->|Hne].
      * rewrite get_set_eq. rewrite bool_decide_eq_true_2; [done|].
        apply elem_of_cons. by left.
      * rewrite get_set_ne by done. rewrite bool_decide_eq_false_2; [done|].
        intros H. apply elem_of_cons in H as [H | H]; [by subst | done].
Qed.

(** X17. Called without a synset for a known word,
    [show_word_closest_relatives] prints nothing and returns a dictionary
    whose keys are the synsets of the word, each with the value
    [show_synset_relations_with_words] gives for it under the same filter
    and output shape. *)
Theorem closest_relatives_of_word chars st word relations print_synsets synsets :
  word_lookup st word = Some synsets →
  synsets ≠ ["No such word in RuWordNet"] →
  ∃ relatives,
    show_word_closest_relatives chars st word "" relations print_synsets
      = (OfWord relatives, [])
    ∧ ∀ syn, get relatives syn
             = if bool_decide (syn ∈ synsets)
               then Some (show_synset_relations_with_words chars st syn
                            print_synsets relations)
               else None.
Proof.
  intros Hw Hne. unfold show_word_closest_relatives. cbn [String.eqb negb].
  rewrite extract_word_synset_number_word_lookup, Hw. cbn [default synsets_list].
  rewrite bool_decide_eq_false_2 by done. cbn [negb].
  eexists. split; [done|]. intros syn.
  by rewrite (fold_set_get
    (fun syn => show_synset_relations_with_words chars st syn print_synsets relations)).
Qed.

(** X18. Called with a synset, [show_word_closest_relatives] returns the
    relatives of that synset whatever the word is, and prints its warning
    exactly when the synset is not in the list that
    [extract_word_synset_number] returns for the word. *)
Theorem closest_relatives_of_synset chars st word synset relations print_synsets :
  synset ≠ "" →
  (show_word_closest_relatives chars st word synset relations print_synsets).1
    = OfSynset (show_synset_relations_with_words chars st synset print_synsets relations)
  ∧ (show_word_closest_relatives chars st word synset relations print_synsets).2
    = if bool_decide
           (synset ∈ default ["No such word in RuWordNet"] (word_lookup st word))
      then [] else [inconsistency_warning].
Proof.
  intros Hne. unfold show_word_closest_relatives.
  apply String.eqb_neq in Hne. rewrite Hne. cbn [negb fst snd].
  split; [done|].
  rewrite extract_word_synset_number_word_lookup. cbn [synsets_list].
  destruct (list_mem synset (default ["No such word in RuWordNet"] (word_lookup st word)))
    eqn:Em.
  - apply list_mem_elem_of in Em. by rewrite bool_decide_eq_true_2.
  - apply list_mem_false in Em. by rewrite bool_decide_eq_false_2.
Qed.

(** X19. For a word that no word map holds and without a synset,
    [show_word_closest_relatives] returns the empty dictionary and prints
    nothing, under every filter and output shape. *)
Theorem closest_relatives_of_unknown_word chars st word relations print_synsets :
  word_lookup st word = None →
  show_word_closest_relatives chars st word "" relations print_synsets = (OfWord [], []).
Proof.
  intros Hw. unfold show_word_closest_relatives. cbn [String.eqb negb].
  rewrite extract_word_synset_number_word_lookup, Hw. cbn [default synsets_list].
  by rewrite bool_decide_eq_true_2.
Qed.

(** ** Instances on the example data *)

Lemma show_synset_definitions_last_record_witness :
  init ascii_lower repeated_definition = Return (loaded repeated_definition)
  ∧ show_synset_definitions (loaded repeated_definition) "N1"
    = Some (SynsetInfo "ЛУК (РАСТЕНИЕ)" "овощ").
Proof.
  assert (init ascii_lower repeated_definition = Return (loaded repeated_definition))
    as H by (vm_compute; reflexivity).
  split; [exact H|].
  etrans; [apply (show_synset_definitions_last_record ascii_lower repeated_definition
                    (loaded repeated_definition) "N1" H)|].
  vm_compute; reflexivity.
Defined.

Lemma scans_reject_unknown_tag_witness :
  valid_pos "noun" = false
  ∧ extract_polysesmous_words ascii_lower one_line_per_record (loaded house_two_senses) "noun" "lemmas"
    = ([], ["Invalid POS-tag"])
  ∧ extract_monosesmous_words ascii_lower one_line_per_record (loaded house_two_senses) "noun" "lemmas"
    = ([], ["Invalid POS-tag"]).
Proof.
  split; [reflexivity|].
  apply (scans_reject_unknown_tag ascii_lower one_line_per_record (loaded house_two_senses) "noun" "lemmas").
  reflexivity.
Defined.

Lemma extract_polysesmous_words_spec_witness :
  senses_of (loaded house_two_senses) "Noun" = Some (file_senses_N house_two_senses)
  ∧ (extract_polysesmous_words ascii_lower one_line_per_record (loaded house_two_senses)
       "Noun" "lemmas").2 = ["|"; "|"]
  ∧ NoDup (extract_polysesmous_words ascii_lower one_line_per_record (loaded house_two_senses)
             "Noun" "lemmas").1
  ∧ "дом" ∈ (extract_polysesmous_words ascii_lower one_line_per_record (loaded house_two_senses)
               "Noun" "lemmas").1.
Proof.
  assert (senses_of (loaded house_two_senses) "Noun"
          = Some (file_senses_N house_two_senses)) as H by (vm_compute; reflexivity).
  split; [exact H|].
  destruct (extract_polysesmous_words_spec ascii_lower one_line_per_record (loaded house_two_senses)
              "Noun" "lemmas" _ H) as (Hout & Hnd & Hmem).
  split; [exact Hout|]. split; [exact Hnd|]. apply Hmem. exists (Sense "дом" "N2" "2" "дом").
  split; [apply elem_of_cons; right; apply elem_of_cons; left; reflexivity|].
  split; [discriminate | vm_compute; reflexivity].
Defined.

Lemma extract_monosesmous_words_spec_witness :
  senses_of (loaded house_two_senses) "Noun" = Some (file_senses_N house_two_senses)
  ∧ (extract_monosesmous_words ascii_lower one_line_per_record (loaded house_two_senses)
       "Noun" "lemmas").2 = ["|"; "|"]
  ∧ NoDup (extract_monosesmous_words ascii_lower one_line_per_record (loaded house_two_senses)
             "Noun" "lemmas").1
  ∧ "дом" ∈ (extract_monosesmous_words ascii_lower one_line_per_record (loaded house_two_senses)
               "Noun" "lemmas").1.
Proof.
  assert (senses_of (loaded house_two_senses) "Noun"
          = Some (file_senses_N house_two_senses)) as H by (vm_compute; reflexivity).
  split; [exact H|].
  destruct (extract_monosesmous_words_spec ascii_lower one_line_per_record (loaded house_two_senses)
              "Noun" "lemmas" _ H) as (Hout & Hnd & Hmem).
  split; [exact Hout|]. split; [exact Hnd|]. apply Hmem. exists (Sense "дом" "N1" "1" "дом").
  split; [apply elem_of_cons; left; reflexivity|].
  split; [reflexivity | vm_compute; reflexivity].
Defined.

Lemma scans_cover_every_key_witness :
  sense_key ascii_lower "lemmas" (Sense "дом" "N2" "2" "дом")
    ∈ (extract_polysesmous_words ascii_lower one_line_per_record (loaded house_two_senses)
         "Noun" "lemmas").1
  ∨ sense_key ascii_lower "lemmas" (Sense "дом" "N2" "2" "дом")
    ∈ (extract_monosesmous_words ascii_lower one_line_per_record (loaded house_two_senses)
         "Noun" "lemmas").1.
Proof.
  apply (scans_cover_every_key ascii_lower one_line_per_record (loaded house_two_senses) "Noun" "lemmas"
           (file_senses_N house_two_senses)).
  - vm_compute; reflexivity.
  - apply elem_of_cons; right; apply elem_of_cons; left; reflexivity.
Defined.

Lemma init_succeeds_witness : ∃ st, init ascii_lower dangling_relation = Return st.
Proof.
  apply (init_succeeds ascii_lower dangling_relation).
  intros r Hr. unfold all_relations, dangling_relation in Hr. simpl in Hr.
  repeat (apply elem_of_cons in Hr as [-> | Hr]; [discriminate|]).
  by apply elem_of_nil in Hr.
Defined.

Lemma get_basic_relations_raises_on_empty_parent_witness :
  r_parent_id orphan_relation = ""
  ∧ get_basic_relations
      ((orphan_relation :: [Relation "N1" "hypernym" "N2"]) :: [[]; []])
    = Raise (KeyError "").
Proof.
  split; [reflexivity|].
  apply (get_basic_relations_raises_on_empty_parent orphan_relation). reflexivity.
Defined.

Lemma get_basic_relations_sound_witness :
  ∃ d, get_basic_relations grouped_relations = Return d
       ∧ (∀ parent rels name children child,
            d !! parent = Some rels → get rels name = Some children →
            child ∈ children →
            has_edge (all_relations grouped_relations) parent name child)
       ∧ (∀ r, r ∈ all_relations grouped_relations →
               ∃ rels, d !! r_parent_id r = Some rels ∧ rels ≠ []).
Proof.
  eexists. split; [vm_compute; reflexivity|].
  apply (get_basic_relations_sound grouped_relations). vm_compute; reflexivity.
Defined.

Lemma get_basic_relations_contiguous_run_witness :
  ∃ d, get_basic_relations grouped_relations = Return d
       ∧ ∃ rels, d !! "N1" = Some rels
                 ∧ ∀ name, get rels name
                           = nonempty (children_of name
                               [Relation "N1" "hypernym" "N2"; Relation "N1" "domain" "N3";
                                Relation "N1" "hypernym" "N4"]).
Proof.
  eexists. split; [vm_compute; reflexivity|].
  apply (get_basic_relations_contiguous_run grouped_relations _ [] []
           [Relation "N1" "hypernym" "N2"; Relation "N1" "domain" "N3";
            Relation "N1" "hypernym" "N4"]
           [Relation "N2" "hyponym" "N1"] [[Relation "A1" "antonym" "A2"]] "N1").
  - vm_compute; reflexivity.
  - reflexivity.
  - discriminate.
  - intros r Hr.
    repeat (apply elem_of_cons in Hr as [-> | Hr]; [reflexivity|]).
    by apply elem_of_nil in Hr.
  - intros r Hr. unfold all_relations in Hr. simpl in Hr.
    repeat (apply elem_of_cons in Hr as [-> | Hr]; [discriminate|]).
    by apply elem_of_nil in Hr.
Defined.

Lemma show_synonyms_returns_witness :
  word_lookup (loaded bow_weapon) "лук" = Some ["N1"]
  ∧ ∃ entries st',
      show_synonyms (loaded bow_weapon) "лук" = (Return (SynonymEntries entries), st')
      ∧ map synset_id entries = ["N1"]
      ∧ Forall (fun e => ruthes_name <$> defin_N (loaded bow_weapon) !! synset_id e
                         = Some (entry_ruthes_name e)) entries.
Proof.
  assert (word_lookup (loaded bow_weapon) "лук" = Some ["N1"]) as H
    by (vm_compute; reflexivity).
  split; [exact H|].
  apply (show_synonyms_returns (loaded bow_weapon) "лук" ["N1"] H).
  apply Forall_cons. split; [|apply Forall_nil_2].
  eexists. vm_compute; reflexivity.
Defined.

Lemma show_synonyms_raises_on_missing_definition_witness :
  (word_lookup (loaded one_verb) "бежать" = Some ["V1"]
   ∧ defin_N (loaded one_verb) !! "V1" = None)
  ∧ ∃ st', show_synonyms (loaded one_verb) "бежать"
           = (Raise (KeyError "ruthes_name"), st').
Proof.
  assert (word_lookup (loaded one_verb) "бежать" = Some ["V1"]) as H1
    by (vm_compute; reflexivity).
  assert (defin_N (loaded one_verb) !! "V1" = None) as H2 by (vm_compute; reflexivity).
  split; [done|].
  apply (show_synonyms_raises_on_missing_definition (loaded one_verb) "бежать" ["V1"] "V1" H1); [|exact H2].
  apply elem_of_cons; left; reflexivity.
Defined.

Lemma show_synonyms_never_lists_query_word_witness :
  ∃ entries st',
    show_synonyms (loaded bow_twice) "лук" = (Return (SynonymEntries entries), st')
    ∧ length entries = 2
    ∧ ∀ e, e ∈ entries → "лук" ∉ content st' (synonyms e).
Proof.
  eexists _, _. split; [vm_compute; reflexivity|]. split; [reflexivity|].
  apply (show_synonyms_never_lists_query_word ascii_lower bow_twice (loaded bow_twice)
           "лук").
  - vm_compute; reflexivity.
  - vm_compute; reflexivity.
Defined.

Lemma relations_with_words_concatenates_witness :
  init ascii_lower dangling_relation = Return (loaded dangling_relation)
  ∧ get (show_synset_relations_with_words (fun _ => []) (loaded dangling_relation)
           "N1" false (RelStr "all")) "hypernym"
    = words_of_targets (loaded dangling_relation)
        <$> get (show_basic_synset_relations (loaded dangling_relation) "N1") "hypernym".
Proof.
  assert (init ascii_lower dangling_relation = Return (loaded dangling_relation)) as H
    by (vm_compute; reflexivity).
  split; [exact H|].
  apply (relations_with_words_concatenates ascii_lower (fun _ => []) dangling_relation
           (loaded dangling_relation) "N1" "hypernym" H).
Defined.

Lemma closest_relatives_of_word_witness :
  word_lookup (loaded dangling_relation) "лук" = Some ["N1"]
  ∧ ∃ relatives,
      show_word_closest_relatives (fun _ => []) (loaded dangling_relation) "лук" ""
        (RelStr "all") false = (OfWord relatives, [])
      ∧ ∀ syn, get relatives syn
               = if bool_decide (syn ∈ ["N1"])
                 then Some (show_synset_relations_with_words (fun _ => [])
                              (loaded dangling_relation) syn false (RelStr "all"))
                 else None.
Proof.
  assert (word_lookup (loaded dangling_relation) "лук" = Some ["N1"]) as H
    by (vm_compute; reflexivity).
  split; [exact H|].
  apply (closest_relatives_of_word (fun _ => []) (loaded dangling_relation) "лук"
           (RelStr "all") false ["N1"] H).
  discriminate.
Defined.

Lemma closest_relatives_of_synset_witness :
  (show_word_closest_relatives (fun _ => []) (loaded dangling_relation) "лук" "N2"
     (RelStr "all") false).1
    = OfSynset (show_synset_relations_with_words (fun _ => [])
                  (loaded dangling_relation) "N2" false (RelStr "all"))
  ∧ (show_word_closest_relatives (fun _ => []) (loaded dangling_relation) "лук" "N2"
       (RelStr "all") false).2
    = if bool_decide
           ("N2" ∈ default ["No such word in RuWordNet"]
                     (word_lookup (loaded dangling_relation) "лук"))
      then [] else [inconsistency_warning].
Proof.
  apply (closest_relatives_of_synset (fun _ => []) (loaded dangling_relation) "лук" "N2"
           (RelStr "all") false).
  discriminate.
Defined.

Lemma closest_relatives_of_unknown_word_witness :
  word_lookup (loaded dangling_relation) "слово" = None
  ∧ show_word_closest_relatives (fun _ => []) (loaded dangling_relation) "слово" ""
      (RelStr "all") true = (OfWord [], []).
Proof.
  assert (word_lookup (loaded dangling_relation) "слово" = None) as H
    by (vm_compute; reflexivity).
  split; [exact H|].
  apply (closest_relatives_of_unknown_word (fun _ => []) (loaded dangling_relation)
           "слово" (RelStr "all") true H).
Defined.

(** ** The last run of a parent *)

Lemma add_relations_prev recs d prev acc' :
  add_relations recs (d, prev) = Return acc' →
  acc'.2 = default prev (r_parent_id <$> last recs).
Proof.
  revert d prev. induction recs as [|r recs IH]; intros d prev; cbn [add_relations].
  - by intros [= <-].
  - destruct (add_relation (d, prev) r) as [[d1 prev1]|] eqn:E; [|done].
    intros H. rewrite (IH _ _ H). rewrite last_cons.
    apply add_relation_Return in E as (Hp & _). simpl in Hp. subst prev1.
    by destruct (last recs).
Qed.

(** X20. The entry of a parent reflects its last run only: when a run of
    records of one parent is not directly preceded by a record of that
    parent (nor, at the head of a file, has the empty parent id) and no
    record of the parent follows it, the relation dictionary of the parent
    lists under every relation name the children of the run's records with
    that name, in record order. Records of the same parent that come before
    the run, apart from it, leave no trace. *)
Theorem get_basic_relations_last_run files d before pre run post after parent :
  get_basic_relations files = Return d →
  files = before ++ (pre ++ run ++ post) :: after →
  run ≠ [] →
  (∀ r, r ∈ run → r_parent_id r = parent) →
  (∀ r, r ∈ post ++ all_relations after → r_parent_id r ≠ parent) →
  default "" (r_parent_id <$> last pre) ≠ parent →
  ∃ rels, d !! parent = Some rels
          ∧ ∀ name, get rels name = nonempty (children_of name run).
Proof.
  intros Hd -> Hne Hrun Hother Hprev. unfold get_basic_relations in Hd.
  rewrite add_relation_files_app in Hd.
  destruct (add_relation_files before ∅) as [d1|] eqn:E1; [|done].
  cbn [add_relation_files] in Hd.
  destruct (add_relations (pre ++ run ++ post) (d1, "")) as [[d2 p2]|] eqn:E2; [|done].
  assert (d !! parent = d2 !! parent) as ->.
  { apply (add_relation_files_frame parent _ _ _ Hd).
    intros r Hr. apply Hother. rewrite !elem_of_app. auto. }
  rewrite add_relations_app in E2.
  destruct (add_relations pre (d1, "")) as [[d3 p3]|] eqn:E3; [|done].
  apply add_relations_prev in E3. simpl in E3. subst p3.
  rewrite add_relations_app in E2.
  destruct run as [|r run]; [done|]. cbn [add_relations] in E2.
  assert (r_parent_id r = parent) as Hp by (apply Hrun, elem_of_cons; by left).
  destruct (add_relation (d3, default "" (r_parent_id <$> last pre)) r)
    as [[d4 p4]|] eqn:E4; [|done].
  apply add_relation_Return in E4 as (Hp4 & rels0 & Hd4 & Hrels0).
  simpl in Hp4, Hd4. rewrite Hp in *. subst p4.
  apply String.eqb_neq in Hprev. rewrite Hprev in Hrels0. subst rels0.
  destruct (add_relations_run parent run d4 (add_child [] r)) as ([d5 p5] & E5 & Hd5).
  { intros r' Hr'. apply Hrun, elem_of_cons. by right. }
  { subst d4. by rewrite lookup_insert_eq. }
  rewrite E5 in E2. simpl in Hd5.
  exists (fold_left add_child (r :: run) []). split.
  - transitivity (d5 !! parent); [|exact Hd5].
    apply (add_relations_frame parent _ _ _ _ E2).
    intros r' Hr'. apply Hother. rewrite !elem_of_app. auto.
  - intros name. rewrite get_fold_add_child. simpl.
    by destruct (children_of name (r :: run)).
Qed.

Lemma get_basic_relations_last_run_witness :
  ∃ d, get_basic_relations (file_relations split_parent_relations) = Return d
       ∧ ∃ rels, d !! "P1" = Some rels
                 ∧ ∀ name, get rels name
                           = nonempty (children_of name [Relation "P1" "hyp" "C"]).
Proof.
  eexists. split; [vm_compute; reflexivity|].
  apply (get_basic_relations_last_run (file_relations split_parent_relations) _ []
           [Relation "P1" "hyp" "A"; Relation "P2" "hol" "B"]
           [Relation "P1" "hyp" "C"] [] [[]; []] "P1").
  - vm_compute; reflexivity.
  - reflexivity.
  - discriminate.
  - intros r Hr.
    repeat (apply elem_of_cons in Hr as [-> | Hr]; [reflexivity|]).
    by apply elem_of_nil in Hr.
  - intros r Hr. unfold all_relations in Hr. simpl in Hr. by apply elem_of_nil in Hr.
  - discriminate.
Defined.
